(** * Mortgage overpayment calculator: amortization engine

    A shallow embedding of [mortgage.py] and the properties of its
    three simulators.

    Numbers.  Python floats are embedded as exact rationals ([Q], compared
    with [==]); rounding, overflow, infinities and NaN are outside this
    embedding.  Python ints ([months], [total_months], [month], [remaining])
    are [Z].

    Effects.  The only exception the engine can raise in exact arithmetic
    is [ZeroDivisionError]; fallible code lives in the [outcome] monad.
    [while] loops run on fuel, and every loop is shown to finish within
    the fuel its caller gives it.

    Rounding.  The exact embedding gives the laws of the arithmetic the
    program implements; a property is stated over it unless it names
    binary64.  What rounding does to those laws is read off a second
    embedding of the same functions over binary64 ([Module B64], on
    primitive floats), where [**] can also raise [OverflowError] and
    [annuity_payment] can divide by a rounded zero.  Loop bounds, month
    numbering and the sign of recorded overpayments are proved there
    too. *)

From Stdlib Require Import ZArith QArith Qpower Qminmax Qfield.
From Stdlib Require Import Lia Lra Psatz List Bool.
From Stdlib Require Import PrimFloat.
Import ListNotations.

Local Open Scope Q_scope.

(** ** Outcomes of Python computations *)

Inductive exn : Type :=
  | ZeroDivisionError
  | OverflowError.

Inductive outcome (A : Type) : Type :=
  | Ok (a : A)
  | Raise (e : exn)
  | OutOfFuel.

Arguments Ok {A} a.
Arguments Raise {A} e.
Arguments OutOfFuel {A}.

Definition bind {A B : Type} (c : outcome A) (k : A -> outcome B) : outcome B :=
  match c with
  | Ok a => k a
  | Raise e => Raise e
  | OutOfFuel => OutOfFuel
  end.

Notation "x <- c ;; k" := (bind c (fun x => k))
  (at level 61, c at next level, right associativity).

(** ** Float primitives, over exact rationals *)

(** [a > b] *)
Definition Qgtb (a b : Q) : bool := negb (Qle_bool a b).

(** [a / b]: Python raises on a zero divisor. *)
Definition py_div (a b : Q) : outcome Q :=
  if Qeq_bool b 0 then Raise ZeroDivisionError else Ok (a / b).

(** [a ** n] for an int exponent: a zero base with a negative exponent
    raises. *)
Definition py_pow (a : Q) (n : Z) : outcome Q :=
  if Qeq_bool a 0 && (n <? 0)%Z then Raise ZeroDivisionError else Ok (a ^ n).

(** [max(a, b)]: the builtin keeps its first argument unless the second is
    strictly greater. *)
Definition py_max (a b : Q) : Q := if Qgtb b a then b else a.

(** ** Data model *)

Record MonthlyEntry : Type := mkEntry {
  month : Z;
  balance : Q;
  interest : Q;
  principal : Q;
  overpayment : Q
}.

Record StrategyResult : Type := mkResult {
  months : Z;
  total_interest : Q;
  schedule : list MonthlyEntry;
  final_installment : Q
}.

(** ** [annuity_payment] *)

Definition annuity_payment (principal monthly_rate : Q) (months : Z) : outcome Q :=
  if Qgtb monthly_rate 0 then
    r_pow_n <- py_pow (1 + monthly_rate) months ;;
    py_div (principal * (monthly_rate * r_pow_n)) (r_pow_n - 1)
  else
    py_div principal (inject_Z months).

(** ** [calculate_baseline_interest] *)

(** The body of [for _ in range(total_months)], on the pair
    [(balance, total_interest)]. *)
Definition baseline_body (monthly_rate base_payment : Q) (s : Q * Q) : Q * Q :=
  let '(balance, total_interest) := s in
  let interest := balance * monthly_rate in
  let balance := balance - (base_payment - interest) in
  let total_interest := total_interest + interest in
  (balance, total_interest).

Fixpoint for_range {S : Type} (n : nat) (body : S -> S) (s : S) : S :=
  match n with
  | O => s
  | Datatypes.S k => for_range k body (body s)
  end.

Definition calculate_baseline_interest
  (principal monthly_rate base_payment : Q) (total_months : Z) : Q :=
  snd (for_range (Z.to_nat total_months)
         (baseline_body monthly_rate base_payment) (principal, 0)).

(** ** [while] loops *)

Fixpoint while {S : Type} (guard : S -> bool) (body : S -> outcome S)
  (fuel : nat) (s : S) : outcome S :=
  if guard s then
    match fuel with
    | O => OutOfFuel
    | Datatypes.S f => s' <- body s ;; while guard body f s'
    end
  else Ok s.

(** ** [calculate_shorten_term] *)

Record shorten_state : Type := mkShorten {
  a_balance : Q;
  a_month : Z;
  a_total_interest : Q;
  a_schedule : list MonthlyEntry;
  a_payment : Q
}.

Definition shorten_guard (total_months : Z) (s : shorten_state) : bool :=
  Qgtb (a_balance s) 0 && (a_month s <? total_months)%Z.

Definition shorten_body (monthly_rate base_payment : Q) (s : shorten_state)
  : shorten_state :=
  let interest := a_balance s * monthly_rate in
  let principal_paid := a_payment s - interest in
  (* Final month: cap payment to remaining balance + interest *)
  let capped := Qgtb principal_paid (a_balance s) in
  let payment := if capped then a_balance s + interest else a_payment s in
  let principal_paid := if capped then a_balance s else principal_paid in
  let balance := a_balance s - principal_paid in
  let total_interest := a_total_interest s + interest in
  let month := (a_month s + 1)%Z in
  let entry :=
    mkEntry month balance interest principal_paid
      (py_max 0 (interest + principal_paid - base_payment)) in
  mkShorten balance month total_interest (a_schedule s ++ [entry]) payment.

Definition shorten_init (principal base_payment overpayment : Q) : shorten_state :=
  mkShorten principal 0%Z 0 [] (base_payment + overpayment).

Definition calculate_shorten_term
  (principal monthly_rate base_payment overpayment : Q) (total_months : Z)
  : outcome StrategyResult :=
  s <- while (shorten_guard total_months)
         (fun s => Ok (shorten_body monthly_rate base_payment s))
         (Z.to_nat total_months)
         (shorten_init principal base_payment overpayment) ;;
  Ok (mkResult (a_month s) (a_total_interest s) (a_schedule s) base_payment).

(** ** [calculate_reduce_payment] *)

Record reduce_state : Type := mkReduce {
  b_balance : Q;
  b_month : Z;
  b_total_interest : Q;
  b_schedule : list MonthlyEntry;
  b_remaining : Z;
  b_installment : Q
}.

Definition reduce_guard (s : reduce_state) : bool :=
  Qgtb (b_balance s) 0 && (b_remaining s >? 0)%Z.

Definition reduce_body (monthly_rate overpayment : Q) (s : reduce_state)
  : outcome reduce_state :=
  let interest := b_balance s * monthly_rate in
  let current_installment := b_installment s in
  let payment := b_installment s + overpayment in
  let principal_paid := payment - interest in
  (* Final month: cap payment to remaining balance + interest *)
  let capped := Qgtb principal_paid (b_balance s) in
  let payment := if capped then b_balance s + interest else payment in
  let principal_paid := if capped then b_balance s else principal_paid in
  let balance := b_balance s - principal_paid in
  let total_interest := b_total_interest s + interest in
  let month := (b_month s + 1)%Z in
  let remaining := (b_remaining s - 1)%Z in
  let entry :=
    mkEntry month balance interest principal_paid
      (py_max 0 (interest + principal_paid - current_installment)) in
  let schedule := b_schedule s ++ [entry] in
  (* Recalculate required installment for reduced balance and remaining term *)
  installment <-
    (if (remaining >? 0)%Z && Qgtb balance 0
     then annuity_payment balance monthly_rate remaining
     else Ok (b_installment s)) ;;
  Ok (mkReduce balance month total_interest schedule remaining installment).

Definition reduce_init (principal base_payment : Q) (total_months : Z)
  : reduce_state :=
  mkReduce principal 0%Z 0 [] total_months base_payment.

Definition calculate_reduce_payment
  (principal monthly_rate base_payment overpayment : Q) (total_months : Z)
  : outcome StrategyResult :=
  s <- while reduce_guard (reduce_body monthly_rate overpayment)
         (Z.to_nat total_months)
         (reduce_init principal base_payment total_months) ;;
  Ok (mkResult (b_month s) (b_total_interest s) (b_schedule s) (b_installment s)).

(** * The engine over binary64

    The same four definitions with Python's floats as they are: IEEE 754
    binary64 with round-to-nearest-even, on Rocq's primitive floats.  The
    two operations the language takes from the C runtime are parameters:
    [libm_pow x n] is C's [pow(x, (double) n)], [round_int n] is the
    conversion of an int to the nearest double. *)

Module B64.

Local Open Scope float_scope.

Record MonthlyEntry : Type := mkEntry {
  month : Z;
  balance : float;
  interest : float;
  principal : float;
  overpayment : float
}.

Record StrategyResult : Type := mkResult {
  months : Z;
  total_interest : float;
  schedule : list MonthlyEntry;
  final_installment : float
}.

(** [a / b]: a zero divisor of either sign raises. *)
Definition py_div (a b : float) : outcome float :=
  if (b =? 0) then Raise ZeroDivisionError else Ok (a / b).

(** [max(a, b)] *)
Definition py_max (a b : float) : float := if (a <? b) then b else a.

Record shorten_state : Type := mkShorten {
  a_balance : float;
  a_month : Z;
  a_total_interest : float;
  a_schedule : list MonthlyEntry;
  a_payment : float
}.

Record reduce_state : Type := mkReduce {
  b_balance : float;
  b_month : Z;
  b_total_interest : float;
  b_schedule : list MonthlyEntry;
  b_remaining : Z;
  b_installment : float
}.

Section Runtime.

Variable libm_pow : float -> Z -> float.
Variable round_int : Z -> float.

(** An int where a float is needed: too large an int raises. *)
Definition py_float (n : Z) : outcome float :=
  let v := round_int n in
  if is_infinity v then Raise OverflowError else Ok v.

(** [x ** n] for an int [n].  The exponent is converted first; a zero
    base with a negative exponent raises, and so does a result that
    overflows.  [libm_pow x n] is the C [pow] at [x] and the converted
    exponent. *)
Definition py_pow (x : float) (n : Z) : outcome float :=
  e <- py_float n ;;
  if (x =? 0) && (e <? 0) then Raise ZeroDivisionError
  else
    let p := libm_pow x n in
    if is_infinity p && negb (is_infinity x) then Raise OverflowError else Ok p.

Definition annuity_payment (principal monthly_rate : float) (months : Z)
  : outcome float :=
  if (0 <? monthly_rate) then
    r_pow_n <- py_pow (1 + monthly_rate) months ;;
    py_div (principal * (monthly_rate * r_pow_n)) (r_pow_n - 1)
  else
    m <- py_float months ;;
    py_div principal m.

Definition shorten_guard (total_months : Z) (s : shorten_state) : bool :=
  (0 <? a_balance s) && (a_month s <? total_months)%Z.

Definition shorten_body (monthly_rate base_payment : float) (s : shorten_state)
  : shorten_state :=
  let interest := a_balance s * monthly_rate in
  let principal_paid := a_payment s - interest in
  (* Final month: cap payment to remaining balance + interest *)
  let capped := (a_balance s <? principal_paid) in
  let payment := if capped then a_balance s + interest else a_payment s in
  let principal_paid := if capped then a_balance s else principal_paid in
  let balance := a_balance s - principal_paid in
  let total_interest := a_total_interest s + interest in
  let month := (a_month s + 1)%Z in
  let entry :=
    mkEntry month balance interest principal_paid
      (py_max 0 (interest + principal_paid - base_payment)) in
  mkShorten balance month total_interest (a_schedule s ++ [entry]) payment.

Definition shorten_init (principal base_payment overpayment : float)
  : shorten_state :=
  mkShorten principal 0%Z 0 [] (base_payment + overpayment).

Definition calculate_shorten_term
  (principal monthly_rate base_payment overpayment : float) (total_months : Z)
  : outcome StrategyResult :=
  s <- while (shorten_guard total_months)
         (fun s => Ok (shorten_body monthly_rate base_payment s))
         (Z.to_nat total_months)
         (shorten_init principal base_payment overpayment) ;;
  Ok (mkResult (a_month s) (a_total_interest s) (a_schedule s) base_payment).

Definition reduce_guard (s : reduce_state) : bool :=
  (0 <? b_balance s) && (b_remaining s >? 0)%Z.

Definition reduce_body (monthly_rate overpayment : float) (s : reduce_state)
  : outcome reduce_state :=
  let interest := b_balance s * monthly_rate in
  let current_installment := b_installment s in
  let payment := b_installment s + overpayment in
  let principal_paid := payment - interest in
  (* Final month: cap payment to remaining balance + interest *)
  let capped := (b_balance s <? principal_paid) in
  let payment := if capped then b_balance s + interest else payment in
  let principal_paid := if capped then b_balance s else principal_paid in
  let balance := b_balance s - principal_paid in
  let total_interest := b_total_interest s + interest in
  let month := (b_month s + 1)%Z in
  let remaining := (b_remaining s - 1)%Z in
  let entry :=
    mkEntry month balance interest principal_paid
      (py_max 0 (interest + principal_paid - current_installment)) in
  let schedule := b_schedule s ++ [entry] in
  (* Recalculate required installment for reduced balance and remaining term *)
  installment <-
    (if (remaining >? 0)%Z && (0 <? balance)
     then annuity_payment balance monthly_rate remaining
     else Ok (b_installment s)) ;;
  Ok (mkReduce balance month total_interest schedule remaining installment).

Definition reduce_init (principal base_payment : float) (total_months : Z)
  : reduce_state :=
  mkReduce principal 0%Z 0 [] total_months base_payment.

Definition calculate_reduce_payment
  (principal monthly_rate base_payment overpayment : float) (total_months : Z)
  : outcome StrategyResult :=
  s <- while reduce_guard (reduce_body monthly_rate overpayment)
         (Z.to_nat total_months)
         (reduce_init principal base_payment total_months) ;;
  Ok (mkResult (b_month s) (b_total_interest s) (b_schedule s) (b_installment s)).

End Runtime.

(** ** A runtime for concrete runs

    Powers by repeated products and ints by their binary digits.  Both
    are exact, and so agree with the C runtime, whenever every
    intermediate value is a binary64 number: powers of [2.0] and of
    [1.0], squares of small multiples of a power of two, ints below
    2^53. *)

Fixpoint product (x : float) (k : nat) : float :=
  match k with
  | O => 1
  | Datatypes.S k' => product x k' * x
  end.

Definition exact_pow (x : float) (n : Z) : float :=
  if (n <? 0)%Z then 1 / product x (Z.to_nat (- n)) else product x (Z.to_nat n).

Fixpoint float_of_positive (p : positive) : float :=
  match p with
  | xH => 1
  | xO q => 2 * float_of_positive q
  | xI q => 2 * float_of_positive q + 1
  end.

Definition exact_int (n : Z) : float :=
  match n with
  | Z0 => 0
  | Zpos p => float_of_positive p
  | Zneg p => - float_of_positive p
  end.

End B64.

(** * The caller: [app.py]

    The page computes a few figures from the results before it renders
    them.  Only those computations are modelled; widgets, charts and
    formatting are not.  An [IndexError] is [None]. *)

(** [sum(xs)]: the builtin adds from [0], left to right. *)
Definition py_sum (l : list Q) : Q := fold_left Qplus l 0.

(** [xs[-1]]: the last element; [IndexError] on an empty list. *)
Definition py_last {A : Type} (l : list A) : option A :=
  if (length l =? 0)%nat then None else nth_error l (length l - 1).

(** [itertools.accumulate(xs)]: running totals, the first being the first
    element itself. *)
Fixpoint accumulate_from (total : Q) (l : list Q) : list Q :=
  match l with
  | [] => []
  | x :: rest => (total + x) :: accumulate_from (total + x) rest
  end.

Definition accumulate (l : list Q) : list Q :=
  match l with
  | [] => []
  | x :: rest => x :: accumulate_from x rest
  end.

(** A list comprehension whose elements may raise: the first failure is
    the comprehension's. *)
Fixpoint comprehension {A : Type} (l : list (option A)) : option (list A) :=
  match l with
  | [] => Some []
  | None :: _ => None
  | Some x :: rest =>
      match comprehension rest with
      | Some xs => Some (x :: xs)
      | None => None
      end
  end.

(** Lines 26-35: what the page computes from its four inputs before it
    shows anything.  The installment comes first, so an exception of
    [annuity_payment] ends the script there. *)
Record page_results : Type := mkPage {
  monthly_rate : Q;
  base_payment : Q;
  baseline_interest : Q;
  result_a : StrategyResult;
  result_b : StrategyResult
}.

Definition page_calculations (principal rate : Q) (total_months : Z)
  (overpayment : Q) : outcome page_results :=
  let monthly_rate := rate / 100 / 12 in
  base_payment <- annuity_payment principal monthly_rate total_months ;;
  let baseline_interest :=
    calculate_baseline_interest principal monthly_rate base_payment total_months in
  result_a <- calculate_shorten_term principal monthly_rate base_payment
                overpayment total_months ;;
  result_b <- calculate_reduce_payment principal monthly_rate base_payment
                overpayment total_months ;;
  Ok (mkPage monthly_rate base_payment baseline_interest result_a result_b).

(** Lines 45-46: the time strategy A saves, in whole years and months. *)
Definition years_saved (total_months : Z) (result_a : StrategyResult) : Z :=
  ((total_months - months result_a) / 12)%Z.

Definition months_saved (total_months : Z) (result_a : StrategyResult) : Z :=
  ((total_months - months result_a) mod 12)%Z.

(** Line 76. *)
Definition num_rows (result_a result_b : StrategyResult) : nat :=
  Nat.max (length (schedule result_a)) (length (schedule result_b)).

(** Lines 79-86: a column of the balance chart, zero once the loan is
    repaid. *)
Definition balance_column (result : StrategyResult) (num_rows : nat) : list Q :=
  map (fun i =>
         if (i <? length (schedule result))%nat
         then match nth_error (schedule result) i with
              | Some e => balance e
              | None => 0
              end
         else 0)
      (seq 0 num_rows).

(** Lines 93-94. *)
Definition cumsum (result : StrategyResult) : list Q :=
  accumulate (map overpayment (schedule result)).

(** Lines 97-104: a column of the cumulative-overpayment chart, holding
    its last value once the loan is repaid. *)
Definition overpayment_column (result : StrategyResult) (num_rows : nat)
  : option (list Q) :=
  comprehension
    (map (fun i =>
            if (i <? length (cumsum result))%nat
            then nth_error (cumsum result) i
            else py_last (cumsum result))
         (seq 0 num_rows)).

(** Lines 110 and 112: the total overpaid, shown under the chart. *)
Definition total_overpayment (result : StrategyResult) : option Q :=
  py_last (cumsum result).

(** Lines 119-120: everything paid under a strategy. *)
Definition total_paid (result : StrategyResult) : Q :=
  py_sum (map (fun e => interest e + principal e) (schedule result)).

(** * Vocabulary of the properties *)

(** ** The annuity factor

    [annuity_payment p r m] is [p] times a factor that depends on the rate
    and the term only. *)

Definition factor (r : Q) (m : Z) : Q :=
  if Qgtb r 0 then r * (1 + r) ^ m / ((1 + r) ^ m - 1) else 1 / inject_Z m.

(** ** Loops *)

(** The states a loop passes through at the top of its body, from [s0]. *)
Inductive reaches {S : Type} (guard : S -> bool) (body : S -> outcome S)
  (s0 : S) : S -> Prop :=
  | reaches_start : reaches guard body s0 s0
  | reaches_step (s s' : S) :
      reaches guard body s0 s -> guard s = true -> body s = Ok s' ->
      reaches guard body s0 s'.

(** ** Schedules *)

(** The principal actually paid in a period: the payment less interest,
    capped to the balance in the final month. *)
Definition paid (payment interest balance : Q) : Q :=
  if Qgtb (payment - interest) balance then balance else payment - interest.

(** Entries carry the month numbers 1, 2, 3, ... *)
Definition numbered (sched : list MonthlyEntry) : Prop :=
  forall i e, nth_error sched i = Some e -> month e = (Z.of_nat i + 1)%Z.

(** Starting from balance [prev], every entry pays off no more than what
    is owed, leaves a non-negative balance, and never raises it. *)
Fixpoint amortizing (prev : Q) (sched : list MonthlyEntry) : Prop :=
  match sched with
  | [] => True
  | e :: rest =>
      (0 <= balance e /\ balance e <= prev /\
       principal e <= prev /\ balance e == prev - principal e) /\
      amortizing (balance e) rest
  end.

(** The balance a schedule ends on, [prev] when it is empty. *)
Fixpoint last_balance (prev : Q) (sched : list MonthlyEntry) : Q :=
  match sched with
  | [] => prev
  | e :: rest => last_balance (balance e) rest
  end.

(** ** The installment in effect in a period, read off the schedule

    Period 1 runs at [base_payment]; a later period runs at the installment
    recalculated from the balance the previous entry left, over the term
    that was then remaining. *)
Definition required_installment (base r : Q) (n : Z)
  (sched : list MonthlyEntry) (i : nat) : outcome Q :=
  match i with
  | O => Ok base
  | Datatypes.S j =>
      match nth_error sched j with
      | Some prev => annuity_payment (balance prev) r (n - Z.of_nat i)
      | None => Ok base
      end
  end.

(** The entry's overpayment field, as the loop bodies compute it against
    the installment [inst]. *)
Definition overpayment_recorded (inst : Q) (e : MonthlyEntry) : Prop :=
  overpayment e = py_max 0 (interest e + principal e - inst).

(** ** Loop invariants *)

(** After [j] periods: the accounting identity, and the installment
    is still the one the remaining balance requires. *)
Definition baseline_inv (P r base : Q) (n j : Z) (s : Q * Q) : Prop :=
  snd s == inject_Z j * base - P + fst s /\
  ((j < n)%Z -> base == factor r (n - j) * fst s) /\
  (j = n -> fst s == 0).

(** Counters and schedule agree, for every input. *)
Definition shorten_shape (n : Z) (s : shorten_state) : Prop :=
  a_month s = Z.of_nat (length (a_schedule s)) /\
  (a_month s <= Z.max 0 n)%Z /\
  numbered (a_schedule s).

Definition reduce_shape (n : Z) (s : reduce_state) : Prop :=
  b_month s = Z.of_nat (length (b_schedule s)) /\
  b_remaining s = (n - b_month s)%Z /\
  (b_month s <= Z.max 0 n)%Z /\
  numbered (b_schedule s).

(** Valid inputs: balances stay within [0, P] and the schedule amortizes. *)
Definition shorten_sound (P base ov : Q) (s : shorten_state) : Prop :=
  0 <= a_balance s /\ a_balance s <= P /\
  (0 < a_balance s -> a_payment s == base + ov) /\
  amortizing P (a_schedule s) /\
  a_balance s = last_balance P (a_schedule s).

(** Valid inputs: while the loop runs, the installment is the one the
    balance requires over the remaining term, and never above [base]. *)
Definition reduce_sound (P r base : Q) (s : reduce_state) : Prop :=
  0 <= b_balance s /\
  b_installment s <= base /\
  (reduce_guard s = true ->
     b_installment s == factor r (b_remaining s) * b_balance s) /\
  amortizing P (b_schedule s) /\
  b_balance s = last_balance P (b_schedule s).

(** After [j] periods paying [pay] each, the simulation is where the
    baseline is. *)
Definition on_baseline (P r base : Q) (n j : Z) (bal ti pay : Q) : Prop :=
  (0 <= j <= n)%Z /\
  ti == inject_Z j * base - P + bal /\
  pay == base /\
  ((j < n)%Z -> 0 < bal /\ base == factor r (n - j) * bal) /\
  (j = n -> bal == 0).

Definition shorten_on_baseline (P r base : Q) (n : Z) (s : shorten_state) : Prop :=
  on_baseline P r base n (a_month s) (a_balance s) (a_total_interest s) (a_payment s).

Definition reduce_on_baseline (P r base : Q) (n : Z) (s : reduce_state) : Prop :=
  b_remaining s = (n - b_month s)%Z /\
  on_baseline P r base n (b_month s) (b_balance s) (b_total_interest s)
    (b_installment s + 0).

(** Strategy A and strategy B after the same number of periods. *)
Definition ahead (P r base ov : Q) (n : Z)
  (sa : shorten_state) (sb : reduce_state) : Prop :=
  a_month sa = b_month sb /\
  b_remaining sb = (n - b_month sb)%Z /\
  a_balance sa <= b_balance sb /\
  a_total_interest sa <= b_total_interest sb /\
  shorten_sound P base ov sa /\
  reduce_sound P r base sb.

(** Every entry was recorded against the installment of its period. *)
Definition shorten_records (base : Q) (s : shorten_state) : Prop :=
  Forall (overpayment_recorded base) (a_schedule s).

Definition reduce_records (base r : Q) (n : Z) (s : reduce_state) : Prop :=
  reduce_shape n s /\
  (forall i e, nth_error (b_schedule s) i = Some e ->
     exists inst,
       required_installment base r n (b_schedule s) i = Ok inst /\
       overpayment_recorded inst e) /\
  (reduce_guard s = true ->
     required_installment base r n (b_schedule s) (length (b_schedule s))
     = Ok (b_installment s)).

(** ** Books *)

(** Each entry charges the rate on the balance before it and takes the
    principal paid off that balance. *)
Fixpoint ledger (r prev : Q) (sched : list MonthlyEntry) : Prop :=
  match sched with
  | [] => True
  | e :: rest =>
      (interest e = prev * r /\ balance e = prev - principal e) /\
      ledger r (balance e) rest
  end.

Definition capped_overpayment (ov : Q) (e : MonthlyEntry) : Prop :=
  0 <= overpayment e /\ overpayment e <= Qmax 0 ov.

Definition shorten_books (P r base ov : Q) (s : shorten_state) : Prop :=
  ledger r P (a_schedule s) /\
  a_balance s = last_balance P (a_schedule s) /\
  a_total_interest s = py_sum (map interest (a_schedule s)) /\
  (0 < a_balance s -> a_payment s = base + ov) /\
  Forall (capped_overpayment ov) (a_schedule s).

Definition reduce_books (P r ov : Q) (s : reduce_state) : Prop :=
  ledger r P (b_schedule s) /\
  b_balance s = last_balance P (b_schedule s) /\
  b_total_interest s = py_sum (map interest (b_schedule s)) /\
  Forall (capped_overpayment ov) (b_schedule s).

(** ** Paying the loan off *)

(** Strategy A owes no more than the baseline would: the base installment
    still covers the balance over what is left of the term. *)
Definition shorten_clears (r base : Q) (n : Z) (s : shorten_state) : Prop :=
  (a_month s <= n)%Z /\
  ((a_month s < n)%Z -> factor r (n - a_month s) * a_balance s <= base) /\
  (a_month s = n -> a_balance s <= 0).

Definition reduce_clears (s : reduce_state) : Prop :=
  (0 <= b_remaining s)%Z /\ (b_remaining s = 0%Z -> b_balance s <= 0).

(** ** Comparing two runs *)

(** Two runs of strategy A after the same number of periods, the first
    one owing no more than the second. *)
Definition shorten_leads (P base ov ov' : Q) (s s' : shorten_state) : Prop :=
  a_month s = a_month s' /\
  a_balance s <= a_balance s' /\
  a_total_interest s <= a_total_interest s' /\
  shorten_sound P base ov s /\
  shorten_sound P base ov' s'.

(** The same for two runs of strategy B. *)
Definition reduce_leads (P r base : Q) (s s' : reduce_state) : Prop :=
  b_month s = b_month s' /\
  b_remaining s = b_remaining s' /\
  b_balance s <= b_balance s' /\
  b_total_interest s <= b_total_interest s' /\
  reduce_sound P r base s /\
  reduce_sound P r base s'.

(** ** The installment of strategy B *)

(** The installment stays positive, and is below [base] from the first
    recalculation on. *)
Definition reduce_lowered (base : Q) (s : reduce_state) : Prop :=
  0 < b_installment s /\
  (b_month s = 1%Z -> reduce_guard s = true -> b_installment s < base) /\
  ((2 <= b_month s)%Z -> b_installment s < base).

(** Strategy B with an overpayment against strategy B without: the same
    is owed at the start, strictly less after one period, and strictly less
    interest has accrued after two. *)
Definition reduce_saves (P r base : Q) (n : Z) (s s' : reduce_state) : Prop :=
  reduce_leads P r base s s' /\
  reduce_on_baseline P r base n s' /\
  (0 <= b_month s)%Z /\
  (b_month s = 0%Z ->
     b_balance s == b_balance s' /\ b_installment s == b_installment s') /\
  (b_month s = 1%Z -> b_balance s < b_balance s') /\
  ((2 <= b_month s)%Z -> b_total_interest s < b_total_interest s').

(** Strategy A and strategy B after the same number of periods, with the
    balances recorded so far. *)
Definition ahead_on_record (P r base ov : Q) (n : Z)
  (sa : shorten_state) (sb : reduce_state) : Prop :=
  ahead P r base ov n sa sb /\
  Forall2 (fun ea eb => balance ea <= balance eb) (a_schedule sa) (b_schedule sb).

(** What is asked of the final states: B's schedule starts with entries
    that owe at least what A's entries owe. *)
Definition record_dominated (fa : shorten_state) (fb : reduce_state) : Prop :=
  exists pre more,
    b_schedule fb = pre ++ more /\
    Forall2 (fun ea eb => balance ea <= balance eb) (a_schedule fa) pre.

(** ** Overpayments recorded in full *)

(** Every entry before the last records the overpayment [ov] in full,
    and so does the last one while a balance is still owed. *)
Definition recorded_in_full (ov balance : Q) (sched : list MonthlyEntry) : Prop :=
  (forall rest e, sched = rest ++ [e] ->
     Forall (fun e' => overpayment e' == ov) rest) /\
  (0 < balance -> Forall (fun e' => overpayment e' == ov) sched).

(** ** Counters of the binary64 loops *)

Definition b64_shorten_shape (n : Z) (s : B64.shorten_state) : Prop :=
  B64.a_month s = Z.of_nat (length (B64.a_schedule s)) /\
  (B64.a_month s <= Z.max 0 n)%Z.

Definition b64_reduce_shape (n : Z) (s : B64.reduce_state) : Prop :=
  B64.b_month s = Z.of_nat (length (B64.b_schedule s)) /\
  B64.b_remaining s = (n - B64.b_month s)%Z /\
  (B64.b_month s <= Z.max 0 n)%Z.

(** ** Records of the binary64 loops *)

(** A figure that is zero or positive: not negative, and not NaN. *)
Definition b64_nonnegative (x : float) : Prop :=
  x = 0%float \/ PrimFloat.ltb 0 x = true.

Definition b64_numbered (sched : list B64.MonthlyEntry) : Prop :=
  forall i e, nth_error sched i = Some e -> B64.month e = (Z.of_nat i + 1)%Z.

(** The month counter is the length of the schedule, entries carry the
    month numbers 1, 2, 3, ..., and no recorded overpayment is negative. *)
Definition b64_recorded (month : Z) (sched : list B64.MonthlyEntry) : Prop :=
  month = Z.of_nat (length sched) /\
  b64_numbered sched /\
  Forall (fun e => b64_nonnegative (B64.overpayment e)) sched.

(** The state of the sample loan (1000 at 10% over 3 periods, overpaying
    100) after its first period. *)
Definition sample_after_first_period : reduce_state :=
  Eval vm_compute in
    match reduce_body (1 # 10) 100 (reduce_init 1000 (1331000000 # 3310000) 3) with
    | Ok s => s
    | _ => reduce_init 1000 (1331000000 # 3310000) 3
    end.

(** * Properties *)

Ltac split_and := repeat match goal with |- _ /\ _ => split end.

(** ** Sanity runs on the test-suite scenarios *)

Example annuity_zero_rate : annuity_payment 120000 0 120 = Ok (120000 / 120).
Proof. reflexivity. Qed.

Example annuity_single_month :
  exists v, annuity_payment 10000 (1 # 100) 1 = Ok v /\ v == 10100.
Proof. eexists. split; [ reflexivity | reflexivity ]. Qed.

(** ** Comparisons and primitives *)

Lemma Qgtb_spec (a b : Q) : reflect (b < a) (Qgtb a b).
Proof.
  unfold Qgtb. destruct (Qle_bool a b) eqn:E; constructor.
  - apply Qle_bool_iff in E. lra.
  - assert (~ a <= b) by (rewrite <- Qle_bool_iff; congruence). lra.
Qed.

Lemma Qgtb_true (a b : Q) : b < a -> Qgtb a b = true.
Proof. destruct (Qgtb_spec a b); [ reflexivity | contradiction ]. Qed.

Lemma Qgtb_false (a b : Q) : a <= b -> Qgtb a b = false.
Proof. destruct (Qgtb_spec a b); [ lra | reflexivity ]. Qed.

Lemma py_max_Qmax (a b : Q) : py_max a b == Qmax a b.
Proof.
  unfold py_max. destruct (Qgtb_spec b a).
  - symmetry. apply Q.max_r. lra.
  - symmetry. apply Q.max_l. lra.
Qed.

Lemma py_max_lower (a b : Q) : a <= py_max a b.
Proof. unfold py_max. destruct (Qgtb_spec b a); lra. Qed.

Lemma py_div_nonzero (a b : Q) : ~ b == 0 -> py_div a b = Ok (a / b).
Proof.
  intros Hb. unfold py_div. destruct (Qeq_bool b 0) eqn:E; [ | reflexivity ].
  apply Qeq_bool_eq in E. contradiction.
Qed.

Lemma py_div_zero (a b : Q) : b == 0 -> py_div a b = Raise ZeroDivisionError.
Proof. intros Hb. unfold py_div. now rewrite (Qeq_eq_bool _ _ Hb). Qed.

Lemma py_pow_nonzero (a : Q) (n : Z) : ~ a == 0 -> py_pow a n = Ok (a ^ n).
Proof.
  intros Ha. unfold py_pow. destruct (Qeq_bool a 0) eqn:E; [ | reflexivity ].
  apply Qeq_bool_eq in E. contradiction.
Qed.

Lemma inject_Z_pos (m : Z) : (1 <= m)%Z -> 1 <= inject_Z m.
Proof. intros H. change 1 with (inject_Z 1). now rewrite <- Zle_Qle. Qed.

Lemma inject_Z_pred (m : Z) : inject_Z (m - 1) == inject_Z m - 1.
Proof.
  unfold Z.sub, Qminus. rewrite inject_Z_plus. reflexivity.
Qed.

Lemma annuity_payment_factor (p r : Q) (m : Z) :
  (1 <= m)%Z -> exists v, annuity_payment p r m = Ok v /\ v == p * factor r m.
Proof.
  intros Hm. unfold annuity_payment, factor.
  destruct (Qgtb_spec r 0) as [Hr | Hr].
  - assert (Hq : 1 < (1 + r) ^ m) by (apply Qpower_1_lt; [ lra | lia ]).
    rewrite py_pow_nonzero by lra. cbn [bind].
    rewrite py_div_nonzero by lra.
    eexists. split; [ reflexivity | ]. field. lra.
  - pose proof (inject_Z_pos m Hm) as Hz.
    rewrite py_div_nonzero by lra.
    eexists. split; [ reflexivity | ]. field. lra.
Qed.

Section Factor.

Variable r : Q.
Hypothesis r_nonneg : 0 <= r.

Lemma factor_above_rate (m : Z) : (1 <= m)%Z -> r < factor r m.
Proof.
  intros Hm. unfold factor. destruct (Qgtb_spec r 0) as [Hr | Hr].
  - assert (Hq : 1 < (1 + r) ^ m) by (apply Qpower_1_lt; [ lra | lia ]).
    set (x := (1 + r) ^ m) in *.
    assert (E : r * x / (x - 1) - r == r / (x - 1)) by (field; lra).
    assert (0 < r / (x - 1)).
    { apply Qlt_shift_div_l; lra. }
    lra.
  - pose proof (inject_Z_pos m Hm) as Hz.
    assert (0 < 1 / inject_Z m) by (apply Qlt_shift_div_l; lra).
    lra.
Qed.

Lemma factor_pos (m : Z) : (1 <= m)%Z -> 0 < factor r m.
Proof. intros Hm. pose proof (factor_above_rate m Hm). lra. Qed.

Lemma factor_one : factor r 1 == 1 + r.
Proof.
  unfold factor. destruct (Qgtb_spec r 0) as [Hr | Hr].
  - rewrite Qpower_1_r. field. lra.
  - change (inject_Z 1) with 1. assert (r == 0) by lra. field_simplify. lra.
Qed.

Lemma factor_step (m : Z) :
  (2 <= m)%Z -> factor r (m - 1) * (1 + r - factor r m) == factor r m.
Proof.
  intros Hm. unfold factor. destruct (Qgtb_spec r 0) as [Hr | Hr].
  - assert (Hx : 1 < (1 + r) ^ (m - 1)) by (apply Qpower_1_lt; [ lra | lia ]).
    assert (E : (1 + r) ^ m == (1 + r) * (1 + r) ^ (m - 1)).
    { replace m with (1 + (m - 1))%Z at 1 by lia.
      rewrite Qpower_plus by lra. now rewrite Qpower_1_r. }
    rewrite E. set (x := (1 + r) ^ (m - 1)) in *.
    assert (1 < (1 + r) * x) by nra.
    field. lra.
  - pose proof (inject_Z_pos m ltac:(lia)) as Hz.
    pose proof (inject_Z_pos (m - 1) ltac:(lia)) as Hz'.
    rewrite inject_Z_pred in *. set (z := inject_Z m) in *.
    assert (E : r == 0) by lra. rewrite E. field. lra.
Qed.

Lemma factor_below_growth (m : Z) : (2 <= m)%Z -> factor r m < 1 + r.
Proof.
  intros Hm. pose proof (factor_step m Hm) as E.
  pose proof (factor_pos m ltac:(lia)). pose proof (factor_pos (m - 1) ltac:(lia)).
  nra.
Qed.

Lemma factor_le_growth (m : Z) : (1 <= m)%Z -> factor r m <= 1 + r.
Proof.
  intros Hm. destruct (Z.eq_dec m 1) as [-> | Hne].
  - rewrite factor_one. lra.
  - pose proof (factor_below_growth m ltac:(lia)). lra.
Qed.

End Factor.

(** One period of amortization at the required installment: the
    installment required for the new balance over one period less is the
    old one minus the amortized overpayment. *)
Lemma factor_recalc (r b inst ov b' : Q) (m : Z) :
  0 <= r -> (2 <= m)%Z ->
  inst == factor r m * b ->
  b' == b - (inst + ov - b * r) ->
  factor r (m - 1) * b' == inst - factor r (m - 1) * ov.
Proof.
  intros Hr Hm Hinst Hb'.
  pose proof (factor_step r Hr m Hm) as E.
  assert (E' : factor r (m - 1) * b'
               == factor r (m - 1) * (1 + r - factor r m) * b
                  - factor r (m - 1) * ov)
    by (rewrite Hb', Hinst; ring).
  rewrite E' , E, Hinst. ring.
Qed.

Lemma last_period_clears (r b inst b' : Q) :
  0 <= r ->
  inst == factor r 1 * b ->
  b' == b - (inst - b * r) ->
  b' == 0.
Proof.
  intros Hr Hinst Hb'. rewrite Hb', Hinst, (factor_one r Hr). ring.
Qed.

Lemma balance_stays_positive (r b inst b' : Q) (m : Z) :
  0 <= r -> (2 <= m)%Z -> 0 < b ->
  inst == factor r m * b ->
  b' == b - (inst - b * r) ->
  0 < b'.
Proof.
  intros Hr Hm Hb Hinst Hb'.
  pose proof (factor_below_growth r Hr m Hm) as Hlt.
  assert (E : b' == b * (1 + r - factor r m)) by (rewrite Hb', Hinst; ring).
  rewrite E. apply Qmult_lt_0_compat; lra.
Qed.

(** ** Baseline simulation *)

Lemma for_range_inv {S : Type} (body : S -> S) (I : Z -> S -> Prop) (n : Z) :
  (forall j s, (0 <= j < n)%Z -> I j s -> I (j + 1)%Z (body s)) ->
  forall k j s, (0 <= j)%Z -> (j + Z.of_nat k <= n)%Z -> I j s ->
    I (j + Z.of_nat k)%Z (for_range k body s).
Proof.
  intros Hstep k. induction k as [ | k IH ]; intros j s Hj Hk HI.
  - cbn. now rewrite Z.add_0_r.
  - cbn [for_range].
    replace (j + Z.of_nat (Datatypes.S k))%Z with ((j + 1) + Z.of_nat k)%Z by lia.
    apply IH; [ lia | lia | ]. apply Hstep; [ lia | assumption ].
Qed.

Section Baseline.

Variables (P r base : Q) (n : Z).
Hypothesis r_nonneg : 0 <= r.
Hypothesis base_factor : base == P * factor r n.

Lemma baseline_inv_step (j : Z) (s : Q * Q) :
  (0 <= j < n)%Z -> baseline_inv P r base n j s ->
  baseline_inv P r base n (j + 1) (baseline_body r base s).
Proof.
  intros Hj (Hacc & Hreq & _). destruct s as [b t].
  unfold baseline_inv, baseline_body. cbn [fst snd] in *.
  specialize (Hreq ltac:(lia)). split_and.
  - rewrite inject_Z_plus, Hacc. change (inject_Z 1) with 1. ring.
  - intros Hlt. replace (n - (j + 1))%Z with (n - j - 1)%Z by lia.
    rewrite (factor_recalc r b base 0 _ (n - j)%Z r_nonneg ltac:(lia) Hreq).
    + ring.
    + ring.
  - intros Heq. apply (last_period_clears r b base _ r_nonneg).
    + now replace 1%Z with (n - j)%Z by lia.
    + ring.
Qed.

Lemma baseline_closed_form :
  (1 <= n)%Z ->
  calculate_baseline_interest P r base n == base * inject_Z n - P.
Proof.
  intros Hn. unfold calculate_baseline_interest.
  pose proof (for_range_inv (baseline_body r base) (baseline_inv P r base n) n
                baseline_inv_step (Z.to_nat n) 0%Z (P, 0)) as H.
  rewrite Z2Nat.id in H by lia. cbn [Z.add] in H.
  destruct H as (Hacc & _ & Hend); [ lia | lia | | ].
  - unfold baseline_inv. split_and; cbn [fst snd].
    + change (inject_Z 0) with 0. ring.
    + intros _. rewrite Z.sub_0_r, base_factor. ring.
    + lia.
  - rewrite Hacc, (Hend eq_refl). ring.
Qed.

End Baseline.

(** ** Reasoning about [while] *)

Lemma while_exit {S : Type} (guard : S -> bool) (body : S -> outcome S)
  (fuel : nat) (s : S) :
  guard s = false -> while guard body fuel s = Ok s.
Proof. intros H. destruct fuel; cbn; now rewrite H. Qed.

Lemma while_enter {S : Type} (guard : S -> bool) (body : S -> outcome S)
  (fuel : nat) (s s' : S) :
  guard s = true -> body s = Ok s' ->
  while guard body (Datatypes.S fuel) s = while guard body fuel s'.
Proof. intros Hg Hb. cbn. now rewrite Hg, Hb. Qed.

Section WhileRules.

Context {S : Type}.
Variables (guard : S -> bool) (body : S -> outcome S).

Lemma reaches_invariant (I : S -> Prop) (s0 : S) :
  I s0 ->
  (forall s s', I s -> guard s = true -> body s = Ok s' -> I s') ->
  forall s, reaches guard body s0 s -> I s.
Proof. intros H0 Hstep s Hr. induction Hr; eauto. Qed.

Lemma reaches_trans (s0 s1 s2 : S) :
  reaches guard body s0 s1 -> reaches guard body s1 s2 ->
  reaches guard body s0 s2.
Proof. intros H1 H2. induction H2; [ assumption | econstructor; eauto ]. Qed.

Lemma while_reaches (fuel : nat) (s s' : S) :
  while guard body fuel s = Ok s' ->
  reaches guard body s s' /\ guard s' = false.
Proof.
  revert s. induction fuel as [ | f IH ]; intros s; cbn;
    destruct (guard s) eqn:Hg; try discriminate.
  - intros [= <-]. split; [ constructor | assumption ].
  - destruct (body s) as [ s1 | | ] eqn:Hb; cbn; try discriminate.
    intros Hw. destruct (IH _ Hw) as [Hr Hg']. split; [ | assumption ].
    eapply reaches_trans; [ | exact Hr ].
    econstructor; [ constructor | eassumption | eassumption ].
  - intros [= <-]. split; [ constructor | assumption ].
Qed.

(** Total correctness: a body that cannot raise and decreases a measure
    bounded by the fuel gives a final state. *)
Lemma while_total (mu : S -> nat) (I : S -> Prop) :
  (forall s, I s -> guard s = true ->
     exists s', body s = Ok s' /\ I s' /\ (mu s' < mu s)%nat) ->
  forall fuel s, I s -> (mu s <= fuel)%nat ->
    exists s', while guard body fuel s = Ok s'.
Proof.
  intros Hstep fuel. induction fuel as [ | f IH ]; intros s HI Hmu.
  - destruct (guard s) eqn:Hg.
    + destruct (Hstep s HI Hg) as (s' & _ & _ & Hlt). lia.
    + exists s. now apply while_exit.
  - destruct (guard s) eqn:Hg.
    + destruct (Hstep s HI Hg) as (s' & Hb & HI' & Hlt).
      rewrite (while_enter _ _ _ _ _ Hg Hb). apply IH; [ assumption | lia ].
    + exists s. now apply while_exit.
Qed.

End WhileRules.

(** ** What one iteration does *)

Lemma paid_le_balance (payment interest balance : Q) :
  paid payment interest balance <= balance.
Proof. unfold paid. destruct (Qgtb_spec (payment - interest) balance); lra. Qed.

Lemma paid_nonneg (payment interest balance : Q) :
  0 <= balance -> interest <= payment -> 0 <= paid payment interest balance.
Proof. unfold paid. destruct (Qgtb_spec (payment - interest) balance); lra. Qed.

Lemma shorten_body_fields (r base : Q) (s : shorten_state) :
  let i := a_balance s * r in
  let p := paid (a_payment s) i (a_balance s) in
  shorten_body r base s =
    mkShorten (a_balance s - p) (a_month s + 1) (a_total_interest s + i)
      (a_schedule s ++
         [mkEntry (a_month s + 1) (a_balance s - p) i p (py_max 0 (i + p - base))])
      (if Qgtb (a_payment s - i) (a_balance s) then a_balance s + i
       else a_payment s).
Proof. reflexivity. Qed.

Lemma reduce_body_fields (r ov : Q) (s s' : reduce_state) :
  reduce_body r ov s = Ok s' ->
  let i := b_balance s * r in
  let p := paid (b_installment s + ov) i (b_balance s) in
  b_balance s' = b_balance s - p /\
  b_month s' = (b_month s + 1)%Z /\
  b_total_interest s' = b_total_interest s + i /\
  b_schedule s' =
    b_schedule s ++
      [mkEntry (b_month s + 1) (b_balance s - p) i p
         (py_max 0 (i + p - b_installment s))] /\
  b_remaining s' = (b_remaining s - 1)%Z /\
  (if reduce_guard s'
   then annuity_payment (b_balance s') r (b_remaining s') = Ok (b_installment s')
   else b_installment s' = b_installment s).
Proof.
  unfold reduce_body, reduce_guard. fold (paid (b_installment s + ov) (b_balance s * r) (b_balance s)).
  cbv zeta. set (p := paid _ _ _).
  rewrite (andb_comm (Qgtb (b_balance s') 0)).
  destruct ((b_remaining s - 1 >? 0)%Z && Qgtb (b_balance s - p) 0) eqn:Hg.
  - destruct (annuity_payment _ _ _) as [ v | | ] eqn:Ha; cbn; try discriminate.
    intros [= <-]. cbn. rewrite Hg. split_and; first [ reflexivity | assumption ].
  - cbn. intros [= <-]. cbn. rewrite Hg. split_and; reflexivity.
Qed.

Lemma reduce_body_ok (r ov : Q) (s : reduce_state) :
  exists s', reduce_body r ov s = Ok s'.
Proof.
  unfold reduce_body. cbv zeta.
  destruct (_ && _) eqn:Hg; cbn [bind]; [ | eauto ].
  apply andb_prop in Hg. destruct Hg as [Hrem _].
  destruct (annuity_payment_factor
              (b_balance s - paid (b_installment s + ov) (b_balance s * r) (b_balance s))
              r (b_remaining s - 1)) as (v & Hv & _); [ lia | ].
  unfold paid in Hv. rewrite Hv. cbn. eauto.
Qed.

(** ** Shape of the schedule, for every input *)

Lemma numbered_nil : numbered [].
Proof. intros [ | i ] e; discriminate. Qed.

Lemma numbered_snoc (sched : list MonthlyEntry) (e : MonthlyEntry) :
  numbered sched -> month e = (Z.of_nat (length sched) + 1)%Z ->
  numbered (sched ++ [e]).
Proof.
  intros Hn He i e' Hi.
  destruct (Nat.lt_ge_cases i (length sched)) as [Hlt | Hge].
  - rewrite nth_error_app1 in Hi by assumption. now apply Hn.
  - rewrite nth_error_app2 in Hi by assumption.
    destruct (i - length sched)%nat as [ | k ] eqn:Hk.
    + injection Hi as <-. rewrite He. f_equal. lia.
    + destruct k; discriminate.
  Qed.

Lemma shorten_guard_true (n : Z) (s : shorten_state) :
  shorten_guard n s = true -> 0 < a_balance s /\ (a_month s < n)%Z.
Proof.
  unfold shorten_guard. intros H. apply andb_prop in H. destruct H as [Hb Hm].
  split; [ | lia ]. now destruct (Qgtb_spec (a_balance s) 0).
Qed.

Lemma reduce_guard_true (s : reduce_state) :
  reduce_guard s = true -> 0 < b_balance s /\ (0 < b_remaining s)%Z.
Proof.
  unfold reduce_guard. intros H. apply andb_prop in H. destruct H as [Hb Hm].
  split; [ | lia ]. now destruct (Qgtb_spec (b_balance s) 0).
Qed.

Lemma shorten_guard_false (n : Z) (s : shorten_state) :
  shorten_guard n s = false -> a_balance s <= 0 \/ (n <= a_month s)%Z.
Proof.
  unfold shorten_guard. intros H. apply andb_false_iff in H. destruct H as [Hb | Hm].
  - left. now destruct (Qgtb_spec (a_balance s) 0); [ discriminate | lra ].
  - right. lia.
Qed.

Lemma reduce_guard_false (s : reduce_state) :
  reduce_guard s = false -> b_balance s <= 0 \/ (b_remaining s <= 0)%Z.
Proof.
  unfold reduce_guard. intros H. apply andb_false_iff in H. destruct H as [Hb | Hm].
  - left. now destruct (Qgtb_spec (b_balance s) 0); [ discriminate | lra ].
  - right. lia.
Qed.

Lemma shorten_shape_step (r base : Q) (n : Z) (s : shorten_state) :
  shorten_shape n s -> shorten_guard n s = true ->
  shorten_shape n (shorten_body r base s).
Proof.
  intros (Hlen & Hmax & Hnum) Hg. apply shorten_guard_true in Hg.
  rewrite shorten_body_fields. unfold shorten_shape. cbn.
  rewrite length_app. cbn. split_and; [ lia | lia | ].
  apply numbered_snoc; [ assumption | cbn; lia ].
Qed.

Lemma reduce_shape_step (r ov : Q) (n : Z) (s s' : reduce_state) :
  reduce_shape n s -> reduce_guard s = true -> reduce_body r ov s = Ok s' ->
  reduce_shape n s'.
Proof.
  intros (Hlen & Hrem & Hmax & Hnum) Hg Hb. apply reduce_guard_true in Hg.
  apply reduce_body_fields in Hb. cbv zeta in Hb.
  destruct Hb as (_ & Hm & _ & Hs & Hr & _). unfold reduce_shape.
  rewrite Hm, Hs, Hr, length_app. cbn. split_and; [ lia | lia | lia | ].
  apply numbered_snoc; [ assumption | cbn; lia ].
Qed.

Lemma shorten_loop_total (r base : Q) (n : Z) (fuel : nat) (s : shorten_state) :
  (Z.to_nat (n - a_month s) <= fuel)%nat ->
  exists s', while (shorten_guard n) (fun s => Ok (shorten_body r base s)) fuel s
             = Ok s'.
Proof.
  apply (while_total _ _ (fun s => Z.to_nat (n - a_month s)) (fun _ => True));
    [ | exact I ].
  intros s0 _ Hg. apply shorten_guard_true in Hg.
  eexists. split; [ reflexivity | split; [ exact I | ] ].
  rewrite shorten_body_fields. cbn. lia.
Qed.

Lemma reduce_loop_total (r ov : Q) (fuel : nat) (s : reduce_state) :
  (Z.to_nat (b_remaining s) <= fuel)%nat ->
  exists s', while reduce_guard (reduce_body r ov) fuel s = Ok s'.
Proof.
  apply (while_total _ _ (fun s => Z.to_nat (b_remaining s)) (fun _ => True));
    [ | exact I ].
  intros s0 _ Hg. apply reduce_guard_true in Hg.
  destruct (reduce_body_ok r ov s0) as (s' & Hb). exists s'.
  split; [ assumption | split; [ exact I | ] ].
  apply reduce_body_fields in Hb. cbv zeta in Hb.
  destruct Hb as (_ & _ & _ & _ & Hr & _). lia.
Qed.

(** Both simulators return, whatever they are given. *)
Lemma shorten_returns (P r base ov : Q) (n : Z) :
  exists s,
    while (shorten_guard n) (fun s => Ok (shorten_body r base s)) (Z.to_nat n)
      (shorten_init P base ov) = Ok s /\
    calculate_shorten_term P r base ov n =
      Ok (mkResult (a_month s) (a_total_interest s) (a_schedule s) base).
Proof.
  destruct (shorten_loop_total r base n (Z.to_nat n) (shorten_init P base ov))
    as (s & Hs); [ cbn; rewrite Z.sub_0_r; lia | ].
  exists s. split; [ assumption | ].
  unfold calculate_shorten_term. now rewrite Hs.
Qed.

Lemma reduce_returns (P r base ov : Q) (n : Z) :
  exists s,
    while reduce_guard (reduce_body r ov) (Z.to_nat n) (reduce_init P base n)
      = Ok s /\
    calculate_reduce_payment P r base ov n =
      Ok (mkResult (b_month s) (b_total_interest s) (b_schedule s)
            (b_installment s)).
Proof.
  destruct (reduce_loop_total r ov (Z.to_nat n) (reduce_init P base n))
    as (s & Hs); [ cbn; lia | ].
  exists s. split; [ assumption | ].
  unfold calculate_reduce_payment. now rewrite Hs.
Qed.

Lemma shorten_final_shape (P r base ov : Q) (n : Z) (s : shorten_state) :
  reaches (shorten_guard n) (fun s => Ok (shorten_body r base s))
    (shorten_init P base ov) s ->
  shorten_shape n s.
Proof.
  apply reaches_invariant.
  - unfold shorten_shape. cbn. split_and; [ reflexivity | lia | apply numbered_nil ].
  - intros s0 s1 HI Hg [= <-]. now apply shorten_shape_step.
Qed.

Lemma reduce_final_shape (P r base ov : Q) (n : Z) (s : reduce_state) :
  reaches reduce_guard (reduce_body r ov) (reduce_init P base n) s ->
  reduce_shape n s.
Proof.
  apply reaches_invariant.
  - unfold reduce_shape. cbn. split_and; [ reflexivity | lia | lia | apply numbered_nil ].
  - intros s0 s1 HI Hg Hb. eapply reduce_shape_step; eassumption.
Qed.

(** ** Amortizing schedules *)

Lemma last_balance_snoc (prev : Q) (sched : list MonthlyEntry) (e : MonthlyEntry) :
  last_balance prev (sched ++ [e]) = balance e.
Proof. revert prev. induction sched as [ | e0 rest IH ]; intros prev; cbn; auto. Qed.

Lemma amortizing_snoc (prev : Q) (sched : list MonthlyEntry) (e : MonthlyEntry) :
  amortizing prev sched ->
  0 <= balance e ->
  balance e <= last_balance prev sched ->
  principal e <= last_balance prev sched ->
  balance e == last_balance prev sched - principal e ->
  amortizing prev (sched ++ [e]).
Proof.
  revert prev. induction sched as [ | e0 rest IH ]; intros prev; cbn.
  - intros _ H1 H2 H3 H4. split_and; first [ assumption | exact I ].
  - intros [H0 Hrest] H1 H2 H3 H4. split; [ assumption | ]. now apply IH.
Qed.

(** ** The simulators on valid inputs *)

Section Valid.

Variables (P r base ov : Q) (n : Z).
Hypothesis P_pos : 0 < P.
Hypothesis r_nonneg : 0 <= r.
Hypothesis ov_nonneg : 0 <= ov.
Hypothesis n_pos : (1 <= n)%Z.
Hypothesis base_factor : base == P * factor r n.

Lemma base_covers_interest (b : Q) : b <= P -> b * r <= base.
Proof.
  intros Hb. pose proof (factor_above_rate r n n_pos) as Hf.
  rewrite base_factor.
  apply Qle_trans with (P * r).
  - apply Qmult_le_compat_r; assumption.
  - rewrite !(Qmult_comm P). apply Qmult_le_compat_r; lra.
Qed.

(** *** Strategy A *)

Lemma shorten_sound_init : shorten_sound P base ov (shorten_init P base ov).
Proof.
  unfold shorten_sound, shorten_init.
  cbn [a_balance a_payment a_schedule amortizing last_balance].
  split_and; [ lra | lra | intros _; reflexivity | exact I | reflexivity ].
Qed.

Lemma shorten_sound_step (s : shorten_state) :
  shorten_sound P base ov s -> shorten_guard n s = true ->
  shorten_sound P base ov (shorten_body r base s).
Proof.
  intros (H0 & HP & Hpay & Ham & Hlast) Hg.
  apply shorten_guard_true in Hg. destruct Hg as [Hb _].
  specialize (Hpay Hb). pose proof (base_covers_interest _ HP) as Hi.
  pose proof (paid_le_balance (a_payment s) (a_balance s * r) (a_balance s)) as Hle.
  pose proof (paid_nonneg (a_payment s) (a_balance s * r) (a_balance s) H0
                ltac:(lra)) as Hge.
  rewrite shorten_body_fields. cbv zeta. unfold shorten_sound. cbn.
  set (p := paid _ _ _) in *.
  split_and; try lra.
  - unfold p, paid. destruct (Qgtb_spec (a_payment s - a_balance s * r) (a_balance s)); lra.
  - apply amortizing_snoc; cbn; rewrite <- ?Hlast; try assumption; lra.
  - now rewrite last_balance_snoc.
Qed.

Lemma shorten_reaches_sound (s : shorten_state) :
  reaches (shorten_guard n) (fun s => Ok (shorten_body r base s))
    (shorten_init P base ov) s ->
  shorten_sound P base ov s.
Proof.
  apply reaches_invariant; [ apply shorten_sound_init | ].
  intros s0 s1 HI Hg [= <-]. now apply shorten_sound_step.
Qed.

(** *** Strategy B *)

Lemma reduce_sound_init : reduce_sound P r base (reduce_init P base n).
Proof.
  unfold reduce_sound, reduce_init.
  cbn [b_balance b_installment b_remaining b_schedule amortizing last_balance].
  split_and; [ lra | lra | | exact I | reflexivity ].
  intros _. rewrite base_factor. ring.
Qed.

(** A recalculation lowers the installment by the overpayment amortized
    over the remaining term. *)
Lemma reduce_recalc (s s' : reduce_state) :
  b_installment s == factor r (b_remaining s) * b_balance s ->
  reduce_guard s = true -> reduce_body r ov s = Ok s' ->
  reduce_guard s' = true ->
  b_installment s' == factor r (b_remaining s') * b_balance s' /\
  b_installment s' == b_installment s - factor r (b_remaining s') * ov /\
  (1 <= b_remaining s')%Z.
Proof.
  intros Hinst Hg Hb Hg'.
  apply reduce_guard_true in Hg. destruct Hg as [Hbal Hrem].
  apply reduce_body_fields in Hb. cbv zeta in Hb.
  destruct Hb as (Eb & _ & _ & _ & Er & Ei). rewrite Hg' in Ei.
  apply reduce_guard_true in Hg'. destruct Hg' as [Hbal' Hrem'].
  destruct (annuity_payment_factor (b_balance s') r (b_remaining s'))
    as (v & Hv & Ev); [ lia | ].
  rewrite Hv in Ei. injection Ei as ->.
  assert (E : factor r (b_remaining s') * b_balance s' == b_installment s')
    by (rewrite Ev; ring).
  split_and; [ now symmetry | | lia ].
  rewrite <- E, Er.
  apply (factor_recalc r (b_balance s) (b_installment s) ov (b_balance s')
           (b_remaining s)); [ assumption | lia | assumption | ].
  rewrite Eb in *. unfold paid in *.
  destruct (Qgtb_spec (b_installment s + ov - b_balance s * r) (b_balance s));
    [ lra | reflexivity ].
Qed.

Lemma reduce_sound_step (s s' : reduce_state) :
  reduce_sound P r base s -> reduce_guard s = true -> reduce_body r ov s = Ok s' ->
  reduce_sound P r base s'.
Proof.
  intros (H0 & Hbase & Hinst & Ham & Hlast) Hg Hb.
  specialize (Hinst Hg).
  assert (Hrecalc := reduce_recalc s s' Hinst Hg Hb).
  apply reduce_guard_true in Hg. destruct Hg as [Hbal Hrem].
  pose proof (factor_above_rate r (b_remaining s) ltac:(lia)) as Hf.
  assert (Hi : b_balance s * r <= b_installment s).
  { rewrite Hinst, (Qmult_comm (b_balance s)).
    apply Qmult_le_compat_r; lra. }
  pose proof (paid_le_balance (b_installment s + ov) (b_balance s * r) (b_balance s)) as Hle.
  pose proof (paid_nonneg (b_installment s + ov) (b_balance s * r) (b_balance s) H0
                ltac:(lra)) as Hge.
  apply reduce_body_fields in Hb. cbv zeta in Hb.
  destruct Hb as (Eb & _ & _ & Es & Er & Ei).
  set (p := paid _ _ _) in *.
  unfold reduce_sound. rewrite Es, Eb. split_and; try lra.
  - destruct (reduce_guard s') eqn:Hg'.
    + destruct (Hrecalc eq_refl) as (_ & E & Hrem').
      pose proof (factor_pos r r_nonneg _ Hrem') as Hpos.
      assert (0 <= factor r (b_remaining s') * ov)
        by (apply Qmult_le_0_compat; lra).
      lra.
    + rewrite Ei. assumption.
  - intros Hg'. rewrite <- Eb. now apply Hrecalc.
  - apply amortizing_snoc; cbn; rewrite <- ?Hlast; try assumption; lra.
  - now rewrite last_balance_snoc.
Qed.

Lemma reduce_reaches_sound (s : reduce_state) :
  reaches reduce_guard (reduce_body r ov) (reduce_init P base n) s ->
  reduce_sound P r base s.
Proof.
  apply reaches_invariant; [ apply reduce_sound_init | ].
  intros s0 s1 HI Hg Hb. eapply reduce_sound_step; eassumption.
Qed.

End Valid.

(** ** No overpayment: both strategies follow the baseline *)

Lemma regular_period (r b inst : Q) (m : Z) :
  0 <= r -> (1 <= m)%Z -> 0 < b -> inst == factor r m * b ->
  inst - b * r <= b /\
  ((2 <= m)%Z ->
     0 < b - (inst - b * r) /\
     inst == factor r (m - 1) * (b - (inst - b * r))) /\
  (m = 1%Z -> b - (inst - b * r) == 0).
Proof.
  intros Hr Hm Hb Hinst. split_and.
  - pose proof (factor_le_growth r Hr m Hm) as Hle.
    assert (factor r m * b <= (1 + r) * b) by (apply Qmult_le_compat_r; lra).
    lra.
  - intros Hm2. split.
    + apply (balance_stays_positive r b inst _ m); auto. reflexivity.
    + rewrite (factor_recalc r b inst 0 (b - (inst - b * r)) m Hr Hm2 Hinst); ring.
  - intros ->. apply (last_period_clears r b inst); auto. reflexivity.
Qed.

Section ZeroOverpayment.

Variables (P r base : Q) (n : Z).
Hypothesis P_pos : 0 < P.
Hypothesis r_nonneg : 0 <= r.
Hypothesis n_pos : (1 <= n)%Z.
Hypothesis base_factor : base == P * factor r n.

Lemma on_baseline_init : on_baseline P r base n 0 P 0 (base + 0).
Proof.
  unfold on_baseline. split_and.
  - lia.
  - lia.
  - change (inject_Z 0) with 0. ring.
  - ring.
  - intros _. rewrite Z.sub_0_r, base_factor. split; [ assumption | ring ].
  - intros <-. lia.
Qed.

Lemma on_baseline_pay (j : Z) (bal ti pay pay' : Q) :
  pay == pay' -> on_baseline P r base n j bal ti pay -> on_baseline P r base n j bal ti pay'.
Proof.
  intros E (Hj & Hti & Hpay & Hreq & Hend). unfold on_baseline.
  split_and; auto; try lia. now rewrite <- E.
Qed.

Lemma on_baseline_uncapped (j : Z) (bal ti pay : Q) :
  on_baseline P r base n j bal ti pay -> (j < n)%Z ->
  Qgtb (pay - bal * r) bal = false /\ paid pay (bal * r) bal = pay - bal * r.
Proof.
  intros (_ & _ & Hpay & Hreq & _) Hj. destruct (Hreq Hj) as [Hb Hf].
  destruct (regular_period r bal base (n - j) r_nonneg ltac:(lia) Hb Hf) as (Hle & _).
  assert (Hk : Qgtb (pay - bal * r) bal = false) by (apply Qgtb_false; lra).
  unfold paid. now rewrite Hk.
Qed.

Lemma on_baseline_step (j : Z) (bal ti pay : Q) :
  on_baseline P r base n j bal ti pay -> (j < n)%Z ->
  on_baseline P r base n (j + 1) (bal - (pay - bal * r)) (ti + bal * r) pay.
Proof.
  intros (Hj & Hti & Hpay & Hreq & _) Hlt. destruct (Hreq Hlt) as [Hb Hf].
  destruct (regular_period r bal base (n - j) r_nonneg ltac:(lia) Hb Hf)
    as (_ & Hmid & Hlast).
  assert (E : bal - (pay - bal * r) == bal - (base - bal * r))
    by (rewrite Hpay; ring).
  unfold on_baseline. split_and.
  - lia.
  - lia.
  - rewrite inject_Z_plus, Hti, Hpay. change (inject_Z 1) with 1. ring.
  - assumption.
  - intros Hlt'. rewrite E.
    replace (n - (j + 1))%Z with (n - j - 1)%Z by lia. apply Hmid. lia.
  - intros Heq. rewrite E. apply Hlast. lia.
Qed.

Lemma on_baseline_final (j : Z) (bal ti pay : Q) :
  on_baseline P r base n j bal ti pay -> (bal <= 0 \/ (n <= j)%Z) ->
  j = n /\ ti == calculate_baseline_interest P r base n.
Proof.
  intros (Hj & Hti & _ & Hreq & Hend) Hstop.
  assert (Heq : j = n).
  { destruct (Z.eq_dec j n) as [ | Hne ]; [ assumption | ].
    destruct (Hreq ltac:(lia)) as [Hb _]. destruct Hstop; [ lra | lia ]. }
  split; [ assumption | ].
  rewrite (baseline_closed_form P r base n r_nonneg base_factor n_pos).
  rewrite Hti, (Hend Heq), Heq. ring.
Qed.

Lemma shorten_on_baseline_step (s : shorten_state) :
  shorten_on_baseline P r base n s -> shorten_guard n s = true ->
  shorten_on_baseline P r base n (shorten_body r base s).
Proof.
  unfold shorten_on_baseline. intros HI Hg.
  apply shorten_guard_true in Hg. destruct Hg as [_ Hlt].
  destruct (on_baseline_uncapped _ _ _ _ HI Hlt) as [Hk Hp].
  pose proof (on_baseline_step _ _ _ _ HI Hlt) as HI'.
  rewrite shorten_body_fields. cbv zeta. cbn. now rewrite Hk, Hp.
Qed.

Lemma reduce_on_baseline_step (s s' : reduce_state) :
  reduce_on_baseline P r base n s -> reduce_guard s = true ->
  reduce_body r 0 s = Ok s' ->
  reduce_on_baseline P r base n s'.
Proof.
  unfold reduce_on_baseline. intros [Hrem HI] Hg Hb.
  pose proof (reduce_guard_true _ Hg) as [_ Hlt]. rewrite Hrem in Hlt.
  destruct (on_baseline_uncapped _ _ _ _ HI ltac:(lia)) as [_ Hp].
  pose proof (on_baseline_step _ _ _ _ HI ltac:(lia)) as HI'.
  assert (Hreq : b_installment s == factor r (b_remaining s) * b_balance s).
  { destruct HI as (_ & _ & Hpay & Hreq & _).
    destruct (Hreq ltac:(lia)) as [_ Hf]. rewrite Hrem, <- Hf, <- Hpay. ring. }
  pose proof (reduce_recalc r 0 r_nonneg s s' Hreq Hg Hb) as Hrecalc.
  apply reduce_body_fields in Hb. cbv zeta in Hb.
  destruct Hb as (Eb & Em & Et & _ & Er & Ei).
  rewrite Hp in Eb. rewrite Em, Et, Eb, Er. split; [ lia | ].
  apply (on_baseline_pay _ _ _ (b_installment s + 0)); [ | assumption ].
  destruct (reduce_guard s') eqn:Hg'.
  - destruct (Hrecalc eq_refl) as (_ & E & _). rewrite E. ring.
  - now rewrite Ei.
Qed.

Lemma shorten_reaches_on_baseline (s : shorten_state) :
  reaches (shorten_guard n) (fun s => Ok (shorten_body r base s))
    (shorten_init P base 0) s ->
  shorten_on_baseline P r base n s.
Proof.
  apply reaches_invariant; [ apply on_baseline_init | ].
  intros s0 s1 HI Hg [= <-]. now apply shorten_on_baseline_step.
Qed.

Lemma reduce_reaches_on_baseline (s : reduce_state) :
  reaches reduce_guard (reduce_body r 0) (reduce_init P base n) s ->
  reduce_on_baseline P r base n s.
Proof.
  apply reaches_invariant.
  - split; [ cbn; lia | ].
    apply (on_baseline_pay _ _ _ (base + 0)); [ reflexivity | apply on_baseline_init ].
  - intros s0 s1 HI Hg Hb. eapply reduce_on_baseline_step; eassumption.
Qed.

End ZeroOverpayment.

(** ** Equal overpayment: strategy A stays ahead of strategy B *)

Lemma reduce_progress (r ov : Q) (s0 s : reduce_state) :
  0 <= r -> 0 <= b_balance s0 ->
  reaches reduce_guard (reduce_body r ov) s0 s ->
  (b_month s0 <= b_month s)%Z /\
  b_total_interest s0 <= b_total_interest s /\
  0 <= b_balance s.
Proof.
  intros Hr H0.
  apply (reaches_invariant _ _
           (fun s => (b_month s0 <= b_month s)%Z /\
                     b_total_interest s0 <= b_total_interest s /\
                     0 <= b_balance s)).
  - split_and; [ lia | lra | assumption ].
  - intros s1 s2 (Hm & Hti & Hbal) _ Hb.
    apply reduce_body_fields in Hb. cbv zeta in Hb.
    destruct Hb as (Eb & Em & Et & _).
    pose proof (paid_le_balance (b_installment s1 + ov) (b_balance s1 * r)
                  (b_balance s1)) as Hle.
    assert (0 <= b_balance s1 * r) by (apply Qmult_le_0_compat; assumption).
    rewrite Eb, Em, Et. split_and; [ lia | lra | lra ].
Qed.

Section Dominance.

Variables (P r base ov : Q) (n : Z).
Hypothesis P_pos : 0 < P.
Hypothesis r_nonneg : 0 <= r.
Hypothesis ov_nonneg : 0 <= ov.
Hypothesis n_pos : (1 <= n)%Z.
Hypothesis base_factor : base == P * factor r n.

Lemma ahead_init : ahead P r base ov n (shorten_init P base ov) (reduce_init P base n).
Proof.
  unfold ahead, shorten_init, reduce_init.
  cbn [a_month a_balance a_total_interest b_month b_balance b_total_interest
       b_remaining].
  split_and; [ reflexivity | lia | lra | lra | | ].
  - apply shorten_sound_init. assumption.
  - apply reduce_sound_init; assumption.
Qed.

Lemma ahead_step (sa : shorten_state) (sb : reduce_state) :
  ahead P r base ov n sa sb -> shorten_guard n sa = true ->
  exists sb',
    reduce_guard sb = true /\ reduce_body r ov sb = Ok sb' /\
    ahead P r base ov n (shorten_body r base sa) sb'.
Proof.
  intros (Hm & Hrem & Hbal & Hti & Ha & Hb) Hga.
  pose proof (shorten_guard_true _ _ Hga) as [Hpos Hlt].
  assert (Hgb : reduce_guard sb = true).
  { unfold reduce_guard. rewrite Qgtb_true by lra. cbn. lia. }
  destruct (reduce_body_ok r ov sb) as (sb' & Hstep). exists sb'.
  split; [ assumption | split; [ assumption | ] ].
  pose proof (shorten_sound_step P r base ov n P_pos r_nonneg ov_nonneg n_pos
                base_factor sa Ha Hga) as Ha'.
  pose proof (reduce_sound_step P r base ov r_nonneg ov_nonneg
                sb sb' Hb Hgb Hstep) as Hb'.
  destruct Ha as (_ & _ & Hpay & _). specialize (Hpay Hpos).
  destruct Hb as (_ & Hinst & _).
  assert (Hi : a_balance sa * r <= b_balance sb * r)
    by (apply Qmult_le_compat_r; assumption).
  unfold ahead. split_and; try assumption.
  - apply reduce_body_fields in Hstep. cbv zeta in Hstep.
    destruct Hstep as (_ & Em & _). rewrite Em, shorten_body_fields. cbn. lia.
  - apply reduce_body_fields in Hstep. cbv zeta in Hstep.
    destruct Hstep as (_ & Em & _ & _ & Er & _). lia.
  - destruct Hb' as (Hb0 & _).
    apply reduce_body_fields in Hstep. cbv zeta in Hstep.
    destruct Hstep as (Eb & _). rewrite Eb in *.
    rewrite shorten_body_fields. cbn. unfold paid in *.
    destruct (Qgtb_spec (a_payment sa - a_balance sa * r) (a_balance sa));
      destruct (Qgtb_spec (b_installment sb + ov - b_balance sb * r) (b_balance sb));
      lra.
  - apply reduce_body_fields in Hstep. cbv zeta in Hstep.
    destruct Hstep as (_ & _ & Et & _). rewrite Et, shorten_body_fields. cbn. lra.
Qed.

Lemma ahead_to_the_end (fuel : nat) :
  forall sa sb fa fb,
    ahead P r base ov n sa sb ->
    while (shorten_guard n) (fun s => Ok (shorten_body r base s)) fuel sa = Ok fa ->
    while reduce_guard (reduce_body r ov) fuel sb = Ok fb ->
    (a_month fa <= b_month fb)%Z /\ a_total_interest fa <= b_total_interest fb.
Proof.
  induction fuel as [ | f IH ]; intros sa sb fa fb Hrel Hwa Hwb;
    destruct (shorten_guard n sa) eqn:Hga.
  - cbn in Hwa. rewrite Hga in Hwa. discriminate.
  - rewrite while_exit in Hwa by assumption. injection Hwa as <-.
    destruct Hrel as (Hm & _ & _ & Hti & _ & Hb0 & _).
    apply while_reaches in Hwb. destruct Hwb as [Hr _].
    destruct (reduce_progress r ov sb fb r_nonneg Hb0 Hr) as (Hm' & Hti' & _).
    split; [ lia | lra ].
  - destruct (ahead_step sa sb Hrel Hga) as (sb' & Hgb & Hstep & Hrel').
    rewrite (while_enter (shorten_guard n)
               (fun s => Ok (shorten_body r base s)) f sa _ Hga eq_refl) in Hwa.
    rewrite (while_enter _ _ _ _ _ Hgb Hstep) in Hwb.
    eapply IH; eassumption.
  - rewrite while_exit in Hwa by assumption. injection Hwa as <-.
    destruct Hrel as (Hm & _ & _ & Hti & _ & Hb0 & _).
    apply while_reaches in Hwb. destruct Hwb as [Hr _].
    destruct (reduce_progress r ov sb fb r_nonneg Hb0 Hr) as (Hm' & Hti' & _).
    split; [ lia | lra ].
Qed.

End Dominance.

(** ** Loops that never start *)

Lemma shorten_no_iteration (P r base ov : Q) (n : Z) :
  shorten_guard n (shorten_init P base ov) = false ->
  calculate_shorten_term P r base ov n = Ok (mkResult 0 0 [] base).
Proof.
  intros Hg. unfold calculate_shorten_term. now rewrite while_exit by assumption.
Qed.

Lemma reduce_no_iteration (P r base ov : Q) (n : Z) :
  reduce_guard (reduce_init P base n) = false ->
  calculate_reduce_payment P r base ov n = Ok (mkResult 0 0 [] base).
Proof.
  intros Hg. unfold calculate_reduce_payment. now rewrite while_exit by assumption.
Qed.

Lemma annuity_payment_base (P r base : Q) (n : Z) :
  (1 <= n)%Z -> annuity_payment P r n = Ok base -> base == P * factor r n.
Proof.
  intros Hn Hb. destruct (annuity_payment_factor P r n Hn) as (v & Hv & E).
  rewrite Hv in Hb. now injection Hb as <-.
Qed.

Lemma required_installment_snoc (base r : Q) (n : Z)
  (sched : list MonthlyEntry) (e : MonthlyEntry) (i : nat) :
  (i <= length sched)%nat ->
  required_installment base r n (sched ++ [e]) i
  = required_installment base r n sched i.
Proof.
  intros Hi. destruct i as [ | j ]; [ reflexivity | ].
  unfold required_installment. now rewrite nth_error_app1 by lia.
Qed.

Lemma overpayment_recorded_max (inst : Q) (e : MonthlyEntry) :
  overpayment_recorded inst e ->
  overpayment e == Qmax 0 (interest e + principal e - inst) /\ 0 <= overpayment e.
Proof.
  unfold overpayment_recorded. intros ->. split.
  - apply py_max_Qmax.
  - apply py_max_lower.
Qed.

Lemma shorten_reaches_records (P r base ov : Q) (n : Z) (s : shorten_state) :
  reaches (shorten_guard n) (fun s => Ok (shorten_body r base s))
    (shorten_init P base ov) s ->
  shorten_records base s.
Proof.
  apply reaches_invariant.
  - constructor.
  - intros s0 s1 HI _ [= <-]. unfold shorten_records in *.
    rewrite shorten_body_fields. cbn. apply Forall_app. split; [ assumption | ].
    constructor; [ reflexivity | constructor ].
Qed.

Lemma reduce_records_step (base r ov : Q) (n : Z) (s s' : reduce_state) :
  reduce_records base r n s -> reduce_guard s = true ->
  reduce_body r ov s = Ok s' ->
  reduce_records base r n s'.
Proof.
  intros (Hshape & Hall & Hcur) Hg Hb.
  pose proof (reduce_shape_step r ov n s s' Hshape Hg Hb) as Hshape'.
  specialize (Hcur Hg).
  apply reduce_body_fields in Hb. cbv zeta in Hb.
  destruct Hb as (Eb & Em & _ & Es & Er & Ei).
  unfold reduce_records. split; [ assumption | ]. split.
  - intros i e Hi. rewrite Es in *.
    destruct (Nat.lt_ge_cases i (length (b_schedule s))) as [Hlt | Hge].
    + rewrite required_installment_snoc by lia.
      rewrite nth_error_app1 in Hi by assumption. now apply Hall.
    + rewrite nth_error_app2 in Hi by assumption.
      destruct (i - length (b_schedule s))%nat as [ | k ] eqn:Hk;
        [ | destruct k; discriminate ].
      injection Hi as <-.
      replace i with (length (b_schedule s)) by lia.
      rewrite required_installment_snoc by lia.
      exists (b_installment s). split; [ assumption | reflexivity ].
  - intros Hg'. rewrite Hg' in Ei.
    destruct Hshape' as (Hlen & Hrem & _).
    rewrite Es in *. rewrite length_app, Nat.add_1_r.
    unfold required_installment.
    rewrite nth_error_app2, Nat.sub_diag by lia. cbn [nth_error balance].
    rewrite <- Eb, <- Ei. f_equal.
    rewrite Hrem, Hlen, length_app, Nat.add_1_r. reflexivity.
Qed.

Lemma reduce_reaches_records (P r base ov : Q) (n : Z) (s : reduce_state) :
  reaches reduce_guard (reduce_body r ov) (reduce_init P base n) s ->
  reduce_records base r n s.
Proof.
  apply reaches_invariant.
  - unfold reduce_records, reduce_shape. cbn. split_and; auto; try lia.
    + apply numbered_nil.
    + intros [ | i ] e; discriminate.
  - intros s0 s1 HI Hg Hb. eapply reduce_records_step; eassumption.
Qed.

Lemma shorten_keeps_first (r base : Q) (n : Z) (e : MonthlyEntry)
  (s0 s : shorten_state) :
  reaches (shorten_guard n) (fun s => Ok (shorten_body r base s)) s0 s ->
  (exists rest, a_schedule s0 = e :: rest) ->
  exists rest, a_schedule s = e :: rest.
Proof.
  intros Hr H0. revert s Hr.
  apply (reaches_invariant _ _ (fun s => exists rest, a_schedule s = e :: rest));
    [ assumption | ].
  intros s1 s2 [rest E] _ [= <-]. rewrite shorten_body_fields. cbn.
  rewrite E. eexists. reflexivity.
Qed.

(** ** Loops stop, whatever the arithmetic *)

Lemma while_no_timeout {S : Type} (guard : S -> bool) (body : S -> outcome S)
  (mu : S -> nat) :
  (forall s, guard s = true ->
     (0 < mu s)%nat /\ body s <> OutOfFuel /\
     forall s', body s = Ok s' -> (mu s' < mu s)%nat) ->
  forall fuel s, (mu s <= fuel)%nat -> while guard body fuel s <> OutOfFuel.
Proof.
  intros Hstep fuel. induction fuel as [ | f IH ]; intros s Hmu;
    destruct (guard s) eqn:Hg; try (rewrite while_exit by assumption; discriminate).
  - destruct (Hstep s Hg) as (Hpos & _). lia.
  - destruct (Hstep s Hg) as (_ & Hbody & Hdec). cbn. rewrite Hg.
    destruct (body s) as [ s' | e | ] eqn:Hb; cbn; [ | discriminate | congruence ].
    apply IH. specialize (Hdec s' eq_refl). lia.
Qed.

Section B64Termination.

Variable libm_pow : float -> Z -> float.
Variable round_int : Z -> float.

Lemma b64_annuity_payment_answers (p r : float) (m : Z) :
  B64.annuity_payment libm_pow round_int p r m <> OutOfFuel.
Proof.
  unfold B64.annuity_payment, B64.py_pow, B64.py_float, B64.py_div.
  repeat match goal with
         | |- context [if ?b then _ else _] => destruct b; cbn [bind]
         end; discriminate.
Qed.

Lemma b64_reduce_body_fields (r ov : float) (s s' : B64.reduce_state) :
  B64.reduce_body libm_pow round_int r ov s = Ok s' ->
  B64.b_month s' = (B64.b_month s + 1)%Z /\
  B64.b_remaining s' = (B64.b_remaining s - 1)%Z /\
  length (B64.b_schedule s') = Datatypes.S (length (B64.b_schedule s)).
Proof.
  unfold B64.reduce_body. cbv zeta.
  match goal with
  | |- bind ?c _ = _ -> _ => destruct c as [ v | e | ]; cbn [bind]; try discriminate
  end.
  intros [= <-]. cbn. rewrite length_app. cbn.
  split_and; [ reflexivity | reflexivity | lia ].
Qed.

Lemma b64_reduce_body_answers (r ov : float) (s : B64.reduce_state) :
  B64.reduce_body libm_pow round_int r ov s <> OutOfFuel.
Proof.
  unfold B64.reduce_body. cbv zeta.
  match goal with
  | |- bind (if ?b then _ else _) _ <> _ => destruct b
  end.
  - match goal with
    | |- context [B64.annuity_payment _ _ ?p ?q ?m] =>
        pose proof (b64_annuity_payment_answers p q m) as H;
        destruct (B64.annuity_payment libm_pow round_int p q m);
        cbn [bind]; congruence
    end.
  - cbn. discriminate.
Qed.

Lemma b64_shorten_guard_true (n : Z) (s : B64.shorten_state) :
  B64.shorten_guard n s = true -> (B64.a_month s < n)%Z.
Proof.
  unfold B64.shorten_guard. intros H. apply andb_prop in H. destruct H as [_ H]. lia.
Qed.

Lemma b64_reduce_guard_true (s : B64.reduce_state) :
  B64.reduce_guard s = true -> (0 < B64.b_remaining s)%Z.
Proof.
  unfold B64.reduce_guard. intros H. apply andb_prop in H. destruct H as [_ H]. lia.
Qed.

Lemma b64_shorten_reaches_shape (P r base ov : float) (n : Z)
  (s : B64.shorten_state) :
  reaches (B64.shorten_guard n) (fun s => Ok (B64.shorten_body r base s))
    (B64.shorten_init P base ov) s ->
  b64_shorten_shape n s.
Proof.
  apply reaches_invariant.
  - unfold b64_shorten_shape. cbn. split; [ reflexivity | lia ].
  - intros s0 s1 [Hlen Hmax] Hg [= <-]. apply b64_shorten_guard_true in Hg.
    unfold b64_shorten_shape, B64.shorten_body. cbn. rewrite length_app. cbn.
    split; lia.
Qed.

Lemma b64_reduce_reaches_shape (P r base ov : float) (n : Z)
  (s : B64.reduce_state) :
  reaches B64.reduce_guard (B64.reduce_body libm_pow round_int r ov)
    (B64.reduce_init P base n) s ->
  b64_reduce_shape n s.
Proof.
  apply reaches_invariant.
  - unfold b64_reduce_shape. cbn. split_and; [ reflexivity | lia | lia ].
  - intros s0 s1 (Hlen & Hrem & Hmax) Hg Hb. apply b64_reduce_guard_true in Hg.
    apply b64_reduce_body_fields in Hb. destruct Hb as (Em & Er & El).
    unfold b64_reduce_shape. rewrite Em, Er, El. split_and; lia.
Qed.

End B64Termination.

(** ** Runs in binary64

    The runs below and among the claims are at a rate of 100% per period,
    or at a rate so large that [1 + rate] is [rate], or so small that
    [1 + rate] is 1: every power the formula takes is then a binary64
    number, so [B64.exact_pow] returns what the C runtime returns. *)

(** The reduce-payment simulator can raise.  A rate of [2^-57] is lost
    when it is added to 1, every power is 1.0, and the first recalculation
    divides by [1.0 - 1]. *)
Example recalculation_can_divide_by_zero :
  B64.calculate_reduce_payment B64.exact_pow B64.exact_int 1000 0x1p-57 100 0 3
  = Raise ZeroDivisionError.
Proof. vm_compute. reflexivity. Qed.

(** * The claims *)



(** C2 (amended).  Over exact arithmetic (floats read as exact
    rationals): given the same non-negative overpayment, the shorten-term
    strategy finishes in no more months than the reduce-payment strategy
    and pays no more interest. *)
Theorem shorten_term_dominates_reduce_payment (P r base ov : Q) (n : Z) :
  0 < P -> 0 <= r -> (1 <= n)%Z -> 0 <= ov ->
  annuity_payment P r n = Ok base ->
  exists ra rb,
    calculate_shorten_term P r base ov n = Ok ra /\
    calculate_reduce_payment P r base ov n = Ok rb /\
    (months ra <= months rb)%Z /\
    total_interest ra <= total_interest rb.
Proof.
  intros HP Hr Hn Hov Hbase.
  pose proof (annuity_payment_base P r base n Hn Hbase) as Hf.
  destruct (shorten_returns P r base ov n) as (sa & Hwa & Hra).
  destruct (reduce_returns P r base ov n) as (sb & Hwb & Hrb).
  do 2 eexists. split; [ eassumption | split; [ eassumption | ] ]. cbn.
  exact (ahead_to_the_end P r base ov n HP Hr Hov Hn Hf (Z.to_nat n) _ _ sa sb
           (ahead_init P r base ov n HP Hf) Hwa Hwb).
Qed.

Lemma shorten_term_dominates_reduce_payment_witness :
  exists ra rb,
    calculate_shorten_term 1000 (1 # 10) (1331000000 # 3310000) 100 3 = Ok ra /\
    calculate_reduce_payment 1000 (1 # 10) (1331000000 # 3310000) 100 3 = Ok rb /\
    (months ra <= months rb)%Z /\
    total_interest ra <= total_interest rb.
Proof.
  apply (shorten_term_dominates_reduce_payment 1000 (1 # 10)
           (1331000000 # 3310000) 100 3);
    [ reflexivity | (unfold Qle; simpl; lia) | lia | (unfold Qle; simpl; lia) | reflexivity ].
Defined.

(** C2, counterexample.  A loan of 1000 at rate 1.0 over 64 periods, no
    overpayment.  [2^64 - 1] rounds to [2^64], so the installment is the
    interest, 1000.0, and strategy A never reduces the balance: 64 periods
    of 1000.0 interest.  Strategy B's recalculated installments start
    repaying once [2^k - 1] is exact, and it ends on 63000.0. *)
Lemma rounding_reverses_interest_order :
  exists ra rb,
    B64.annuity_payment B64.exact_pow B64.exact_int 1000 1 64 = Ok 1000%float /\
    B64.calculate_shorten_term 1000 1 1000 0 64 = Ok ra /\
    B64.calculate_reduce_payment B64.exact_pow B64.exact_int 1000 1 1000 0 64
      = Ok rb /\
    B64.total_interest ra = 64000%float /\
    B64.total_interest rb = 63000%float /\
    PrimFloat.leb (B64.total_interest ra) (B64.total_interest rb) = false.
Proof.
  do 2 eexists.
  split; [ vm_compute; reflexivity | ].
  split; [ vm_compute; reflexivity | ].
  split; [ vm_compute; reflexivity | ].
  split_and; vm_compute; reflexivity.
Qed.

(** C3.  The iterative baseline simulation at the annuity installment
    returns exactly [installment * n - principal]. *)
Theorem baseline_interest_closed_form (P r base : Q) (n : Z) :
  0 < P -> 0 <= r -> (1 <= n)%Z ->
  annuity_payment P r n = Ok base ->
  calculate_baseline_interest P r base n == base * inject_Z n - P.
Proof.
  intros _ Hr Hn Hbase. apply baseline_closed_form; try assumption.
  now apply annuity_payment_base.
Qed.

Lemma baseline_interest_closed_form_witness :
  calculate_baseline_interest 1000 (1 # 10) (1331000000 # 3310000) 3
  == (1331000000 # 3310000) * inject_Z 3 - 1000.
Proof.
  apply (baseline_interest_closed_form 1000 (1 # 10) (1331000000 # 3310000) 3);
    [ reflexivity | (unfold Qle; simpl; lia) | lia | reflexivity ].
Defined.

(** C4 (amended).  Over exact arithmetic (floats read as exact
    rationals): on valid inputs every schedule is [amortizing] from the
    principal: each entry's balance is non-negative and no greater than the
    balance before it, the principal paid never exceeds the balance owed
    (the final-month cap), and the new balance is the old one less the
    principal paid. *)
Theorem schedules_amortize (P r base ov : Q) (n : Z) :
  0 < P -> 0 <= r -> 0 <= ov ->
  annuity_payment P r n = Ok base ->
  exists ra rb,
    calculate_shorten_term P r base ov n = Ok ra /\
    calculate_reduce_payment P r base ov n = Ok rb /\
    amortizing P (schedule ra) /\
    amortizing P (schedule rb).
Proof.
  intros HP Hr Hov Hbase.
  destruct (Z.le_gt_cases 1 n) as [Hn | Hn].
  - pose proof (annuity_payment_base P r base n Hn Hbase) as Hf.
    destruct (shorten_returns P r base ov n) as (sa & Hwa & Hra).
    destruct (reduce_returns P r base ov n) as (sb & Hwb & Hrb).
    do 2 eexists. split; [ eassumption | split; [ eassumption | ] ]. cbn.
    apply while_reaches in Hwa. destruct Hwa as [Hreach_a _].
    apply while_reaches in Hwb. destruct Hwb as [Hreach_b _].
    split.
    + now apply (shorten_reaches_sound P r base ov n HP Hr Hov Hn Hf sa).
    + now apply (reduce_reaches_sound P r base ov n HP Hr Hov Hf sb).
  - do 2 eexists. split; [ | split ].
    + apply shorten_no_iteration. unfold shorten_guard. cbn.
      apply andb_false_iff. right. lia.
    + apply reduce_no_iteration. unfold reduce_guard. cbn.
      apply andb_false_iff. right. lia.
    + cbn. auto.
Qed.

Lemma schedules_amortize_witness :
  exists ra rb,
    calculate_shorten_term 1000 (1 # 10) (1331000000 # 3310000) 100 3 = Ok ra /\
    calculate_reduce_payment 1000 (1 # 10) (1331000000 # 3310000) 100 3 = Ok rb /\
    amortizing 1000 (schedule ra) /\
    amortizing 1000 (schedule rb).
Proof.
  apply (schedules_amortize 1000 (1 # 10) (1331000000 # 3310000) 100 3);
    [ reflexivity | (unfold Qle; simpl; lia) | discriminate | reflexivity ].
Defined.

(** C4, counterexample.  A loan of 4.0249999999999995 at rate [3 * 2^56]
    over 2 periods, no overpayment.  The installment the formula returns is
    one unit in the last place below the first period's interest, so the
    principal paid is negative and the recorded balances rise: above the
    principal after the first period, and again after the second. *)
Lemma rounding_raises_balances :
  exists base ra e1 e2,
    B64.annuity_payment B64.exact_pow B64.exact_int
      0x1.0199999999999p+2 0x3p+56 2 = Ok base /\
    B64.calculate_shorten_term 0x1.0199999999999p+2 0x3p+56 base 0 2 = Ok ra /\
    B64.schedule ra = [e1; e2] /\
    PrimFloat.ltb 0x1.0199999999999p+2 (B64.balance e1) = true /\
    PrimFloat.ltb (B64.balance e1) (B64.balance e2) = true.
Proof.
  do 4 eexists.
  split; [ vm_compute; reflexivity | ].
  split; [ vm_compute; reflexivity | ].
  split; [ vm_compute; reflexivity | ].
  split; vm_compute; reflexivity.
Qed.

(** C5 (amended).  Over exact arithmetic (floats read as exact
    rationals): with a positive overpayment, whenever the reduce-payment
    loop recalculates the installment at the end of a period, the new
    installment is strictly below the one that was in effect during that
    period. *)
Theorem recalculated_installment_decreases
  (P r base ov : Q) (n : Z) (s s' : reduce_state) :
  0 < P -> 0 <= r -> 0 < ov ->
  annuity_payment P r n = Ok base ->
  reaches reduce_guard (reduce_body r ov) (reduce_init P base n) s ->
  reduce_guard s = true ->
  reduce_body r ov s = Ok s' ->
  (b_remaining s' >? 0)%Z && Qgtb (b_balance s') 0 = true ->
  b_installment s' < b_installment s.
Proof.
  intros HP Hr Hov Hbase Hreach Hg Hb Hrecalc.
  pose proof (reduce_final_shape P r base ov n s Hreach) as (Hlen & Hrem & _).
  pose proof (reduce_guard_true s Hg) as [_ Hpos].
  assert (Hn : (1 <= n)%Z) by lia.
  pose proof (annuity_payment_base P r base n Hn Hbase) as Hf.
  pose proof (reduce_reaches_sound P r base ov n HP Hr ltac:(lra) Hf s Hreach)
    as (_ & _ & Hinst & _).
  assert (Hg' : reduce_guard s' = true)
    by (unfold reduce_guard; now rewrite andb_comm).
  destruct (reduce_recalc r ov Hr s s' (Hinst Hg) Hg Hb Hg') as (_ & E & Hrem').
  pose proof (factor_pos r Hr _ Hrem') as Hfac.
  assert (0 < factor r (b_remaining s') * ov) by (apply Qmult_lt_0_compat; lra).
  lra.
Qed.

Lemma recalculated_installment_decreases_witness :
  b_installment sample_after_first_period
  < b_installment (reduce_init 1000 (1331000000 # 3310000) 3).
Proof.
  apply (recalculated_installment_decreases 1000 (1 # 10)
           (1331000000 # 3310000) 100 3
           (reduce_init 1000 (1331000000 # 3310000) 3));
    [ reflexivity | unfold Qle; simpl; lia | reflexivity | reflexivity
    | apply reaches_start | reflexivity | reflexivity | reflexivity ].
Defined.

(** C5, counterexample.  A loan of 1000 at rate 1.0 over 64 periods with
    an overpayment of 1e-14.  The overpayment is lost when it is added to
    the installment, and the installment recalculated after the first
    period is the installment of the first period, 1000.0: not lower. *)
Lemma rounding_keeps_installment :
  exists s',
    PrimFloat.ltb 0 0x1.6849b86a12b9bp-47 = true /\
    B64.annuity_payment B64.exact_pow B64.exact_int 1000 1 64 = Ok 1000%float /\
    B64.reduce_guard (B64.reduce_init 1000 1000 64) = true /\
    B64.reduce_body B64.exact_pow B64.exact_int 1 0x1.6849b86a12b9bp-47
      (B64.reduce_init 1000 1000 64) = Ok s' /\
    ((B64.b_remaining s' >? 0)%Z && PrimFloat.ltb 0 (B64.b_balance s')) = true /\
    B64.b_installment s' = 1000%float /\
    PrimFloat.ltb (B64.b_installment s')
      (B64.b_installment (B64.reduce_init 1000 1000 64)) = false.
Proof.
  eexists.
  split; [ vm_compute; reflexivity | ].
  split; [ vm_compute; reflexivity | ].
  split; [ vm_compute; reflexivity | ].
  split; [ vm_compute; reflexivity | ].
  split_and; vm_compute; reflexivity.
Qed.

(** C6 (amended).  [annuity_payment] has no guard on the term.  A zero
    term raises [ZeroDivisionError] at the division itself, in either
    branch; a negative term returns the value of the formula. *)
Theorem annuity_payment_nonpositive_term (P r : Q) (n : Z) :
  (n <= 0)%Z ->
  annuity_payment P r n =
    if (n =? 0)%Z then Raise ZeroDivisionError
    else Ok (if Qgtb r 0
             then P * (r * (1 + r) ^ n) / ((1 + r) ^ n - 1)
             else P / inject_Z n).
Proof.
  intros Hn. unfold annuity_payment.
  destruct (Z.eqb_spec n 0) as [-> | Hne].
  - destruct (Qgtb_spec r 0) as [Hr | Hr].
    + rewrite py_pow_nonzero by lra. cbn [bind].
      apply py_div_zero. reflexivity.
    + apply py_div_zero. reflexivity.
  - destruct (Qgtb_spec r 0) as [Hr | Hr].
    + rewrite py_pow_nonzero by lra. cbn [bind].
      apply py_div_nonzero.
      pose proof (Qpower_lt_compat_l (1 + r) n 0 ltac:(lia) ltac:(lra)) as Hlt.
      change ((1 + r) ^ 0) with 1 in Hlt. lra.
    + apply py_div_nonzero.
      assert (inject_Z n < inject_Z 0) by (rewrite <- Zlt_Qlt; lia).
      change (inject_Z 0) with 0 in *. lra.
Qed.

Lemma annuity_payment_nonpositive_term_witness :
  annuity_payment 120 (1 # 10) 0 = Raise ZeroDivisionError.
Proof.
  apply (annuity_payment_nonpositive_term 120 (1 # 10) 0). lia.
Defined.

(** C6, counterexample.  A term of [-12] at rate zero is accepted and a
    negative installment comes back. *)
Lemma negative_term_returns_a_value :
  exists v, annuity_payment 120 0 (-12) = Ok v /\ v == - (10).
Proof. eexists. split; reflexivity. Qed.

(** C7 (amended).  In binary64, whatever the floats given and whatever
    the C runtime's [pow] and int conversion return, neither simulator runs
    out of the [max 0 total_months] iterations its loop is allowed: each
    call ends, by returning or by raising, and a returned result has
    [months] and a schedule length of at most [max 0 total_months]. *)
Theorem simulators_stop_within_term_binary64
  (libm_pow : float -> Z -> float) (round_int : Z -> float)
  (P r base ov : float) (n : Z) :
  B64.calculate_shorten_term P r base ov n <> OutOfFuel /\
  B64.calculate_reduce_payment libm_pow round_int P r base ov n <> OutOfFuel /\
  (forall ra, B64.calculate_shorten_term P r base ov n = Ok ra ->
     (B64.months ra <= Z.max 0 n)%Z /\
     (Z.of_nat (length (B64.schedule ra)) <= Z.max 0 n)%Z) /\
  (forall rb, B64.calculate_reduce_payment libm_pow round_int P r base ov n = Ok rb ->
     (B64.months rb <= Z.max 0 n)%Z /\
     (Z.of_nat (length (B64.schedule rb)) <= Z.max 0 n)%Z).
Proof.
  unfold B64.calculate_shorten_term, B64.calculate_reduce_payment.
  assert (Ha : while (B64.shorten_guard n)
                 (fun s => Ok (B64.shorten_body r base s)) (Z.to_nat n)
                 (B64.shorten_init P base ov) <> OutOfFuel).
  { apply (while_no_timeout _ _ (fun s => Z.to_nat (n - B64.a_month s))).
    - intros s Hg. apply b64_shorten_guard_true in Hg.
      split_and; [ lia | discriminate | ].
      intros s' [= <-]. unfold B64.shorten_body. cbn. lia.
    - cbn. rewrite Z.sub_0_r. lia. }
  assert (Hb : while B64.reduce_guard (B64.reduce_body libm_pow round_int r ov)
                 (Z.to_nat n) (B64.reduce_init P base n) <> OutOfFuel).
  { apply (while_no_timeout _ _ (fun s => Z.to_nat (B64.b_remaining s))).
    - intros s Hg. apply b64_reduce_guard_true in Hg.
      split_and; [ lia | apply b64_reduce_body_answers | ].
      intros s' Hs'. apply b64_reduce_body_fields in Hs'.
      destruct Hs' as (_ & Er & _). lia.
    - cbn. lia. }
  split_and.
  - destruct (while _ _ _ _) as [ s | e | ]; cbn [bind]; congruence.
  - destruct (while B64.reduce_guard _ _ _) as [ s | e | ]; cbn [bind]; congruence.
  - intros ra.
    destruct (while (B64.shorten_guard n) _ _ _) as [ s | e | ] eqn:Hw;
      cbn [bind]; try discriminate.
    intros [= <-]. cbn. apply while_reaches in Hw. destruct Hw as [Hreach _].
    destruct (b64_shorten_reaches_shape P r base ov n s Hreach) as [Hlen Hmax]. lia.
  - intros rb.
    destruct (while B64.reduce_guard _ _ _) as [ s | e | ] eqn:Hw;
      cbn [bind]; try discriminate.
    intros [= <-]. cbn. apply while_reaches in Hw. destruct Hw as [Hreach _].
    destruct (b64_reduce_reaches_shape libm_pow round_int P r base ov n s Hreach)
      as (Hlen & _ & Hmax). lia.
Qed.

(** C7, counterexample.  With [total_months = -1] the loop body never
    runs and [months] is [0], which is more than [total_months]. *)
Lemma negative_term_exceeds_bound :
  exists ra,
    calculate_shorten_term 1000 (1 # 10) 50 0 (-1) = Ok ra /\
    ~ (months ra <= -1)%Z.
Proof. eexists. split; [ reflexivity | cbn; lia ]. Qed.

(** C8 (amended).  Over exact arithmetic (floats read as exact
    rationals): on valid inputs with a positive overpayment whose first
    period is not capped, the first entry of the shorten-term schedule
    records exactly the configured overpayment; and in both schedules every
    entry records [max(0, interest + principal - installment)], which is
    non-negative, the installment being [base_payment] for strategy A and
    the one in effect in that period for strategy B. *)
Theorem overpayment_fields (P r base ov : Q) (n : Z) :
  0 < P -> 0 <= r -> 0 < ov -> (1 <= n)%Z ->
  annuity_payment P r n = Ok base ->
  base + ov - P * r <= P ->
  exists ra rb,
    calculate_shorten_term P r base ov n = Ok ra /\
    calculate_reduce_payment P r base ov n = Ok rb /\
    (exists e rest, schedule ra = e :: rest /\ overpayment e == ov) /\
    (forall e, In e (schedule ra) ->
       overpayment e == Qmax 0 (interest e + principal e - base) /\
       0 <= overpayment e) /\
    (forall i e, nth_error (schedule rb) i = Some e ->
       exists inst,
         required_installment base r n (schedule rb) i = Ok inst /\
         overpayment e == Qmax 0 (interest e + principal e - inst) /\
         0 <= overpayment e).
Proof.
  intros HP Hr Hov Hn Hbase Hcap.
  destruct (shorten_returns P r base ov n) as (sa & Hwa & Hra).
  destruct (reduce_returns P r base ov n) as (sb & Hwb & Hrb).
  do 2 eexists. split; [ eassumption | split; [ eassumption | ] ]. cbn.
  pose proof (while_reaches _ _ _ _ _ Hwa) as [Hreach_a _].
  apply while_reaches in Hwb. destruct Hwb as [Hreach_b _].
  split_and.
  - destruct (Z.to_nat n) as [ | f ] eqn:Hfuel; [ lia | ].
    assert (Hg : shorten_guard n (shorten_init P base ov) = true).
    { unfold shorten_guard. cbn. rewrite Qgtb_true by assumption. cbn. lia. }
    rewrite (while_enter (shorten_guard n)
               (fun s => Ok (shorten_body r base s)) f _ _ Hg eq_refl) in Hwa.
    apply while_reaches in Hwa. destruct Hwa as [Hreach _].
    set (e := mkEntry 1 (P - (base + ov - P * r)) (P * r) (base + ov - P * r)
                (py_max 0 (P * r + (base + ov - P * r) - base))).
    destruct (shorten_keeps_first r base n e _ sa Hreach) as [rest Hrest].
    { exists []. rewrite shorten_body_fields. cbn. unfold paid.
      now rewrite Qgtb_false by assumption. }
    exists e, rest. split; [ assumption | ].
    cbn. unfold py_max. rewrite Qgtb_true by lra. ring.
  - intros e He.
    pose proof (shorten_reaches_records P r base ov n sa Hreach_a) as Hall.
    unfold shorten_records in Hall. rewrite Forall_forall in Hall.
    apply overpayment_recorded_max. now apply Hall.
  - intros i e Hi.
    destruct (reduce_reaches_records P r base ov n sb Hreach_b) as (_ & Hall & _).
    destruct (Hall i e Hi) as (inst & Hinst & Hrec).
    exists inst. split; [ assumption | ]. now apply overpayment_recorded_max.
Qed.

Lemma overpayment_fields_witness :
  exists ra rb,
    calculate_shorten_term 1000 (1 # 10) (1331000000 # 3310000) 100 3 = Ok ra /\
    calculate_reduce_payment 1000 (1 # 10) (1331000000 # 3310000) 100 3 = Ok rb /\
    (exists e rest, schedule ra = e :: rest /\ overpayment e == 100) /\
    (forall e, In e (schedule ra) ->
       overpayment e
       == Qmax 0 (interest e + principal e - (1331000000 # 3310000)) /\
       0 <= overpayment e) /\
    (forall i e, nth_error (schedule rb) i = Some e ->
       exists inst,
         required_installment (1331000000 # 3310000) (1 # 10) 3 (schedule rb) i
         = Ok inst /\
         overpayment e == Qmax 0 (interest e + principal e - inst) /\
         0 <= overpayment e).
Proof.
  apply (overpayment_fields 1000 (1 # 10) (1331000000 # 3310000) 100 3);
    [ reflexivity | unfold Qle; simpl; lia | reflexivity | lia | reflexivity
    | unfold Qle; simpl; lia ].
Defined.

(** C8, counterexample.  A loan of 1000 at rate 1.0 over 3 periods with an
    overpayment of 0.1.  The first period is not capped, and its entry
    records 0.099999999999909051: the sum of installment and overpayment
    was rounded before the installment was taken off again. *)
Lemma rounding_alters_first_overpayment :
  exists base ra e rest,
    B64.annuity_payment B64.exact_pow B64.exact_int 1000 1 3 = Ok base /\
    PrimFloat.leb (PrimFloat.sub (PrimFloat.add base 0x1.999999999999ap-4)
                     (PrimFloat.mul 1000 1)) 1000 = true /\
    B64.calculate_shorten_term 1000 1 base 0x1.999999999999ap-4 3 = Ok ra /\
    B64.schedule ra = e :: rest /\
    B64.overpayment e = 0x1.9999999998p-4%float /\
    PrimFloat.eqb (B64.overpayment e) 0x1.999999999999ap-4 = false.
Proof.
  do 4 eexists.
  split; [ vm_compute; reflexivity | ].
  split; [ vm_compute; reflexivity | ].
  split; [ vm_compute; reflexivity | ].
  split; [ vm_compute; reflexivity | ].
  split; vm_compute; reflexivity.
Qed.

(** C9.  For every input, [months] is the length of the schedule and the
    entry at position [i] carries month number [i + 1]. *)
Theorem schedule_is_numbered (P r base ov : Q) (n : Z) :
  exists ra rb,
    calculate_shorten_term P r base ov n = Ok ra /\
    calculate_reduce_payment P r base ov n = Ok rb /\
    months ra = Z.of_nat (length (schedule ra)) /\
    (forall i e, nth_error (schedule ra) i = Some e ->
       month e = (Z.of_nat i + 1)%Z) /\
    months rb = Z.of_nat (length (schedule rb)) /\
    (forall i e, nth_error (schedule rb) i = Some e ->
       month e = (Z.of_nat i + 1)%Z).
Proof.
  destruct (shorten_returns P r base ov n) as (sa & Hwa & Hra).
  destruct (reduce_returns P r base ov n) as (sb & Hwb & Hrb).
  do 2 eexists. split; [ eassumption | split; [ eassumption | ] ]. cbn.
  apply while_reaches in Hwa. destruct Hwa as [Hreach_a _].
  apply while_reaches in Hwb. destruct Hwb as [Hreach_b _].
  destruct (shorten_final_shape P r base ov n sa Hreach_a) as (Hla & _ & Hna).
  destruct (reduce_final_shape P r base ov n sb Hreach_b) as (Hlb & _ & _ & Hnb).
  split_and; assumption.
Qed.

(** C10.  A non-positive principal gives the empty result: no months, no
    interest, no schedule entries, and the installment handed in. *)
Theorem nonpositive_principal_gives_empty_result (P r base ov : Q) (n : Z) :
  P <= 0 ->
  calculate_shorten_term P r base ov n = Ok (mkResult 0 0 [] base) /\
  calculate_reduce_payment P r base ov n = Ok (mkResult 0 0 [] base).
Proof.
  intros HP. split.
  - apply shorten_no_iteration. unfold shorten_guard. cbn.
    now rewrite Qgtb_false by assumption.
  - apply reduce_no_iteration. unfold reduce_guard. cbn.
    now rewrite Qgtb_false by assumption.
Qed.

Lemma nonpositive_principal_gives_empty_result_witness :
  calculate_shorten_term (- (5)) (1 # 10) 50 10 12 = Ok (mkResult 0 0 [] 50) /\
  calculate_reduce_payment (- (5)) (1 # 10) 50 10 12 = Ok (mkResult 0 0 [] 50).
Proof.
  apply (nonpositive_principal_gives_empty_result (- (5)) (1 # 10) 50 10 12).
  unfold Qle; simpl; lia.
Defined.

(** * Further properties of the engine *)

(** ** The annuity formula *)

(** The factor of a term from the factor of the term one shorter. *)
Lemma factor_unfold (r : Q) (m : Z) :
  0 <= r -> (2 <= m)%Z ->
  factor r m * (1 + factor r (m - 1)) == factor r (m - 1) * (1 + r).
Proof.
  intros Hr Hm. pose proof (factor_step r Hr m Hm) as E. lra.
Qed.

Lemma factor_shrinks (r : Q) (m : Z) :
  0 <= r -> (2 <= m)%Z -> factor r m < factor r (m - 1).
Proof.
  intros Hr Hm.
  pose proof (factor_unfold r m Hr Hm) as E.
  pose proof (factor_above_rate r (m - 1) ltac:(lia)) as Hrate.
  pose proof (factor_pos r Hr (m - 1) ltac:(lia)) as Hpos.
  set (c := factor r m) in *. set (c' := factor r (m - 1)) in *.
  assert (H : c * (1 + c') < c' * (1 + c')).
  { rewrite E. rewrite !(Qmult_comm c'). apply Qmult_lt_compat_r; lra. }
  apply Qmult_lt_r in H; lra.
Qed.

Lemma factor_decreasing_in_term (r : Q) (k : nat) (m : Z) :
  0 <= r -> (1 <= m)%Z ->
  factor r (m + Z.of_nat (Datatypes.S k)) < factor r m.
Proof.
  intros Hr Hm. induction k as [ | k IH ].
  - pose proof (factor_shrinks r (m + 1) Hr ltac:(lia)) as H.
    now replace (m + 1 - 1)%Z with m in H by lia.
  - pose proof (factor_shrinks r (m + Z.of_nat (Datatypes.S (Datatypes.S k))) Hr
                  ltac:(lia)) as H.
    replace (m + Z.of_nat (Datatypes.S (Datatypes.S k)) - 1)%Z
      with (m + Z.of_nat (Datatypes.S k))%Z in H by lia.
    lra.
Qed.

Lemma factor_increasing_in_rate (r1 r2 : Q) (k : nat) :
  0 <= r1 -> r1 < r2 ->
  factor r1 (Z.of_nat k + 1) < factor r2 (Z.of_nat k + 1).
Proof.
  intros H1 H12. assert (H2 : 0 <= r2) by lra.
  induction k as [ | k IH ].
  - cbn [Z.of_nat Z.add]. rewrite !factor_one by assumption. lra.
  - replace (Z.of_nat (Datatypes.S k) + 1)%Z with (Z.of_nat k + 2)%Z by lia.
    pose proof (factor_unfold r1 (Z.of_nat k + 2) H1 ltac:(lia)) as E1.
    pose proof (factor_unfold r2 (Z.of_nat k + 2) H2 ltac:(lia)) as E2.
    pose proof (factor_below_growth r1 H1 (Z.of_nat k + 2) ltac:(lia)) as Hq1.
    pose proof (factor_pos r2 H2 (Z.of_nat k + 2) ltac:(lia)) as Hp2.
    replace (Z.of_nat k + 2 - 1)%Z with (Z.of_nat k + 1)%Z in * by lia.
    pose proof (factor_pos r1 H1 (Z.of_nat k + 1) ltac:(lia)) as Hp1'.
    set (c1 := factor r1 (Z.of_nat k + 2)) in *.
    set (c2 := factor r2 (Z.of_nat k + 2)) in *.
    set (c1' := factor r1 (Z.of_nat k + 1)) in *.
    set (c2' := factor r2 (Z.of_nat k + 1)) in *.
    destruct (Qlt_le_dec c1 c2) as [ | Hge ]; [ assumption | exfalso ].
    (* c2 <= c1 forces 1 + r2 < 1 + r1 *)
    assert (A1 : c2 * (1 + c2') <= c1 * (1 + c2'))
      by (apply Qmult_le_compat_r; lra).
    assert (A2 : c1 * (c2' - c1') < (1 + r1) * (c2' - c1'))
      by (apply Qmult_lt_compat_r; lra).
    assert (A3 : (1 + r1) * c2' < (1 + r2) * c2')
      by (apply Qmult_lt_compat_r; lra).
    lra.
Qed.

(** X1.  Over exact arithmetic (floats read as exact rationals): a
    one-period loan is repaid with the principal plus one period of
    interest. *)
Theorem annuity_payment_single_period (P r : Q) :
  0 <= r ->
  exists v, annuity_payment P r 1 = Ok v /\ v == P * (1 + r).
Proof.
  intros Hr. destruct (annuity_payment_factor P r 1 ltac:(lia)) as (v & Hv & E).
  exists v. split; [ assumption | ]. now rewrite E, factor_one.
Qed.

Lemma annuity_payment_single_period_witness :
  exists v, annuity_payment 10000 (1 # 100) 1 = Ok v /\ v == 10000 * (1 + (1 # 100)).
Proof.
  apply (annuity_payment_single_period 10000 (1 # 100)). unfold Qle; simpl; lia.
Defined.

(** X2.  Over exact arithmetic (floats read as exact rationals): the
    installment of a loan strictly exceeds the first period's interest and
    is at most the principal plus that interest. *)
Theorem annuity_payment_bounds (P r v : Q) (n : Z) :
  0 < P -> 0 <= r -> (1 <= n)%Z ->
  annuity_payment P r n = Ok v ->
  P * r < v /\ v <= P * (1 + r).
Proof.
  intros HP Hr Hn Hv. rewrite (annuity_payment_base P r v n Hn Hv).
  pose proof (factor_above_rate r n Hn) as Hlo.
  pose proof (factor_le_growth r Hr n Hn) as Hhi.
  split.
  - rewrite !(Qmult_comm P). apply Qmult_lt_compat_r; assumption.
  - rewrite !(Qmult_comm P). apply Qmult_le_compat_r; lra.
Qed.

Lemma annuity_payment_bounds_witness :
  1000 * (1 # 10) < (1331000000 # 3310000) /\
  (1331000000 # 3310000) <= 1000 * (1 + (1 # 10)).
Proof.
  apply (annuity_payment_bounds 1000 (1 # 10) (1331000000 # 3310000) 3);
    [ reflexivity | unfold Qle; simpl; lia | lia | reflexivity ].
Defined.

(** X3.  Over exact arithmetic (floats read as exact rationals): for a
    fixed principal and term, a higher rate gives a strictly higher
    installment. *)
Theorem annuity_payment_increasing_in_rate (P r1 r2 v1 v2 : Q) (n : Z) :
  0 < P -> 0 <= r1 -> r1 < r2 -> (1 <= n)%Z ->
  annuity_payment P r1 n = Ok v1 ->
  annuity_payment P r2 n = Ok v2 ->
  v1 < v2.
Proof.
  intros HP H1 H12 Hn Hv1 Hv2.
  rewrite (annuity_payment_base P r1 v1 n Hn Hv1).
  rewrite (annuity_payment_base P r2 v2 n Hn Hv2).
  pose proof (factor_increasing_in_rate r1 r2 (Z.to_nat (n - 1)) H1 H12) as H.
  replace (Z.of_nat (Z.to_nat (n - 1)) + 1)%Z with n in H by lia.
  rewrite !(Qmult_comm P). apply Qmult_lt_compat_r; assumption.
Qed.

Lemma annuity_payment_increasing_in_rate_witness :
  (1331000000 # 3310000) < (3456000000 # 7280000).
Proof.
  apply (annuity_payment_increasing_in_rate 1000 (1 # 10) (2 # 10)
           (1331000000 # 3310000) (3456000000 # 7280000) 3);
    [ reflexivity | unfold Qle; simpl; lia | reflexivity | lia
    | reflexivity | reflexivity ].
Defined.

(** X4.  Over exact arithmetic (floats read as exact rationals): for a
    fixed principal and rate, a longer term gives a strictly lower
    installment. *)
Theorem annuity_payment_decreasing_in_term (P r v1 v2 : Q) (n1 n2 : Z) :
  0 < P -> 0 <= r -> (1 <= n1)%Z -> (n1 < n2)%Z ->
  annuity_payment P r n1 = Ok v1 ->
  annuity_payment P r n2 = Ok v2 ->
  v2 < v1.
Proof.
  intros HP Hr Hn1 Hn12 Hv1 Hv2.
  rewrite (annuity_payment_base P r v1 n1 Hn1 Hv1).
  rewrite (annuity_payment_base P r v2 n2 ltac:(lia) Hv2).
  pose proof (factor_decreasing_in_term r (Z.to_nat (n2 - n1 - 1)) n1 Hr Hn1) as H.
  replace (n1 + Z.of_nat (Datatypes.S (Z.to_nat (n2 - n1 - 1))))%Z with n2 in H by lia.
  rewrite !(Qmult_comm P). apply Qmult_lt_compat_r; assumption.
Qed.

Lemma annuity_payment_decreasing_in_term_witness :
  (1331000000 # 3310000) < (12100000 # 21000).
Proof.
  apply (annuity_payment_decreasing_in_term 1000 (1 # 10)
           (12100000 # 21000) (1331000000 # 3310000) 2 3);
    [ reflexivity | unfold Qle; simpl; lia | lia | lia
    | reflexivity | reflexivity ].
Defined.

(** ** Books kept by the simulators, for every input *)

Lemma py_sum_snoc (l : list Q) (x : Q) : py_sum (l ++ [x]) = py_sum l + x.
Proof. unfold py_sum. now rewrite fold_left_app. Qed.

Lemma ledger_snoc (r prev : Q) (sched : list MonthlyEntry) (e : MonthlyEntry) :
  ledger r prev sched ->
  interest e = last_balance prev sched * r ->
  balance e = last_balance prev sched - principal e ->
  ledger r prev (sched ++ [e]).
Proof.
  revert prev. induction sched as [ | e0 rest IH ]; intros prev; cbn.
  - intros _ H1 H2. split_and; first [ assumption | exact I ].
  - intros [H0 Hrest] H1 H2. split; [ assumption | ]. now apply IH.
Qed.

Lemma paid_le_due (payment interest balance : Q) :
  paid payment interest balance <= payment - interest.
Proof. unfold paid. destruct (Qgtb_spec (payment - interest) balance); lra. Qed.

Lemma capped_overpayment_recorded (ov inst i p : Q) (m : Z) (b : Q) :
  p <= inst + ov - i ->
  capped_overpayment ov (mkEntry m b i p (py_max 0 (i + p - inst))).
Proof.
  intros Hp. unfold capped_overpayment. cbn [overpayment]. split.
  - apply py_max_lower.
  - rewrite py_max_Qmax. apply Q.max_le_compat_l. lra.
Qed.

Lemma shorten_books_step (P r base ov : Q) (n : Z) (s : shorten_state) :
  shorten_books P r base ov s -> shorten_guard n s = true ->
  shorten_books P r base ov (shorten_body r base s).
Proof.
  intros (Hled & Hlast & Hti & Hpay & Hcap) Hg.
  apply shorten_guard_true in Hg. destruct Hg as [Hb _]. specialize (Hpay Hb).
  rewrite shorten_body_fields. cbv zeta. unfold shorten_books.
  cbn [a_schedule a_balance a_total_interest a_payment].
  split_and.
  - apply ledger_snoc; [ assumption | cbn; now rewrite Hlast | cbn; now rewrite Hlast ].
  - now rewrite last_balance_snoc.
  - rewrite map_app. cbn [map interest]. now rewrite py_sum_snoc, Hti.
  - unfold paid.
    destruct (Qgtb_spec (a_payment s - a_balance s * r) (a_balance s));
      [ intros; lra | intros _; assumption ].
  - apply Forall_app. split; [ assumption | ]. constructor; [ | constructor ].
    apply capped_overpayment_recorded.
    pose proof (paid_le_due (a_payment s) (a_balance s * r) (a_balance s)) as H.
    rewrite Hpay in *. lra.
Qed.

Lemma reduce_books_step (P r ov : Q) (s s' : reduce_state) :
  reduce_books P r ov s -> reduce_body r ov s = Ok s' ->
  reduce_books P r ov s'.
Proof.
  intros (Hled & Hlast & Hti & Hcap) Hb.
  apply reduce_body_fields in Hb. cbv zeta in Hb.
  destruct Hb as (Eb & _ & Et & Es & _).
  unfold reduce_books. rewrite Es, Eb, Et. split_and.
  - apply ledger_snoc; [ assumption | cbn; now rewrite Hlast | cbn; now rewrite Hlast ].
  - now rewrite last_balance_snoc.
  - rewrite map_app. cbn [map interest]. now rewrite py_sum_snoc, Hti.
  - apply Forall_app. split; [ assumption | ]. constructor; [ | constructor ].
    apply capped_overpayment_recorded.
    pose proof (paid_le_due (b_installment s + ov) (b_balance s * r) (b_balance s)).
    lra.
Qed.

Lemma shorten_reaches_books (P r base ov : Q) (n : Z) (s : shorten_state) :
  reaches (shorten_guard n) (fun s => Ok (shorten_body r base s))
    (shorten_init P base ov) s ->
  shorten_books P r base ov s.
Proof.
  apply reaches_invariant.
  - unfold shorten_books, shorten_init. cbn.
    split_and; first [ reflexivity | exact I | constructor ].
  - intros s0 s1 HI Hg [= <-]. eapply shorten_books_step; eassumption.
Qed.

Lemma reduce_reaches_books (P r base ov : Q) (n : Z) (s : reduce_state) :
  reaches reduce_guard (reduce_body r ov) (reduce_init P base n) s ->
  reduce_books P r ov s.
Proof.
  apply reaches_invariant.
  - unfold reduce_books, reduce_init. cbn.
    split_and; first [ reflexivity | exact I | constructor ].
  - intros s0 s1 HI _ Hb. eapply reduce_books_step; eassumption.
Qed.

(** Both simulators run to a final state that the loop reaches. *)
Lemma simulators_run (P r base ov : Q) (n : Z) :
  exists sa sb,
    calculate_shorten_term P r base ov n =
      Ok (mkResult (a_month sa) (a_total_interest sa) (a_schedule sa) base) /\
    calculate_reduce_payment P r base ov n =
      Ok (mkResult (b_month sb) (b_total_interest sb) (b_schedule sb)
            (b_installment sb)) /\
    reaches (shorten_guard n) (fun s => Ok (shorten_body r base s))
      (shorten_init P base ov) sa /\
    shorten_guard n sa = false /\
    reaches reduce_guard (reduce_body r ov) (reduce_init P base n) sb /\
    reduce_guard sb = false.
Proof.
  destruct (shorten_returns P r base ov n) as (sa & Hwa & Hra).
  destruct (reduce_returns P r base ov n) as (sb & Hwb & Hrb).
  apply while_reaches in Hwa. destruct Hwa as [Hreach_a Hstop_a].
  apply while_reaches in Hwb. destruct Hwb as [Hreach_b Hstop_b].
  exists sa, sb. split_and; assumption.
Qed.

(** X5.  For every input, each schedule is a consistent ledger starting
    from the principal (interest = balance before times rate, balance =
    balance before less principal paid), and [total_interest] is the sum of
    the interest fields. *)
Theorem schedules_are_ledgers (P r base ov : Q) (n : Z) :
  exists ra rb,
    calculate_shorten_term P r base ov n = Ok ra /\
    calculate_reduce_payment P r base ov n = Ok rb /\
    ledger r P (schedule ra) /\
    total_interest ra = py_sum (map interest (schedule ra)) /\
    ledger r P (schedule rb) /\
    total_interest rb = py_sum (map interest (schedule rb)).
Proof.
  destruct (simulators_run P r base ov n) as (sa & sb & Hra & Hrb & Ha & _ & Hb & _).
  do 2 eexists. split; [ eassumption | split; [ eassumption | ] ]. cbn.
  destruct (shorten_reaches_books P r base ov n sa Ha) as (La & _ & Ta & _).
  destruct (reduce_reaches_books P r base ov n sb Hb) as (Lb & _ & Tb & _).
  split_and; assumption.
Qed.

(** X6.  Over exact arithmetic (floats read as exact rationals): for
    every input, no entry of either schedule records an overpayment above
    the configured one (or above zero when that is negative), nor below
    zero. *)
Theorem overpayment_never_exceeds_configured (P r base ov : Q) (n : Z) :
  exists ra rb,
    calculate_shorten_term P r base ov n = Ok ra /\
    calculate_reduce_payment P r base ov n = Ok rb /\
    (forall e, In e (schedule ra) ->
       0 <= overpayment e /\ overpayment e <= Qmax 0 ov) /\
    (forall e, In e (schedule rb) ->
       0 <= overpayment e /\ overpayment e <= Qmax 0 ov).
Proof.
  destruct (simulators_run P r base ov n) as (sa & sb & Hra & Hrb & Ha & _ & Hb & _).
  do 2 eexists. split; [ eassumption | split; [ eassumption | ] ]. cbn.
  destruct (shorten_reaches_books P r base ov n sa Ha) as (_ & _ & _ & _ & Ca).
  destruct (reduce_reaches_books P r base ov n sb Hb) as (_ & _ & _ & Cb).
  rewrite Forall_forall in Ca, Cb. split; intros e He; [ now apply Ca | now apply Cb ].
Qed.

(** ** The loan is paid off *)

Section Repaid.

Variables (P r base ov : Q) (n : Z).
Hypothesis P_pos : 0 < P.
Hypothesis r_nonneg : 0 <= r.
Hypothesis ov_nonneg : 0 <= ov.
Hypothesis n_pos : (1 <= n)%Z.
Hypothesis base_factor : base == P * factor r n.

Lemma shorten_clears_step (s : shorten_state) :
  shorten_sound P base ov s -> shorten_clears r base n s ->
  shorten_guard n s = true ->
  shorten_clears r base n (shorten_body r base s).
Proof.
  intros (H0 & _ & Hpay & _) (Hm & Hreq & _) Hg.
  apply shorten_guard_true in Hg. destruct Hg as [Hb Hlt].
  specialize (Hpay Hb). specialize (Hreq Hlt).
  assert (Hbase : 0 <= base).
  { rewrite base_factor. apply Qmult_le_0_compat;
      [ lra | pose proof (factor_pos r r_nonneg n n_pos); lra ]. }
  rewrite shorten_body_fields. cbv zeta. unfold shorten_clears.
  cbn [a_month a_balance]. unfold paid.
  destruct (Qgtb_spec (a_payment s - a_balance s * r) (a_balance s)) as [Hcap | Hcap].
  - split_and; [ lia | intros _ | intros _; lra ].
    assert (E : a_balance s - a_balance s == 0) by ring. rewrite E. lra.
  - split_and; [ lia | intros Hlt' | intros Heq ].
    + replace (n - (a_month s + 1))%Z with (n - a_month s - 1)%Z by lia.
      pose proof (factor_step r r_nonneg (n - a_month s) ltac:(lia)) as E.
      pose proof (factor_pos r r_nonneg (n - a_month s - 1) ltac:(lia)) as Hc'.
      set (c := factor r (n - a_month s)) in *.
      set (c' := factor r (n - a_month s - 1)) in *.
      apply Qle_trans with (c' * (a_balance s * (1 + r - c))).
      * rewrite !(Qmult_comm c'). apply Qmult_le_compat_r; lra.
      * assert (E' : c' * (a_balance s * (1 + r - c))
                     == c' * (1 + r - c) * a_balance s) by ring.
        rewrite E', E. assumption.
    + replace (n - a_month s)%Z with 1%Z in Hreq by lia.
      rewrite (factor_one r r_nonneg) in Hreq. lra.
Qed.

Lemma shorten_reaches_clears (s : shorten_state) :
  reaches (shorten_guard n) (fun s => Ok (shorten_body r base s))
    (shorten_init P base ov) s ->
  shorten_sound P base ov s /\ shorten_clears r base n s.
Proof.
  apply (reaches_invariant _ _
           (fun s => shorten_sound P base ov s /\ shorten_clears r base n s)).
  - split; [ now apply shorten_sound_init | ].
    unfold shorten_clears, shorten_init. cbn [a_month a_balance].
    split_and; [ lia | intros _ | lia ].
    rewrite Z.sub_0_r, base_factor. lra.
  - intros s0 s1 [Hs Hc] Hg [= <-]. split.
    + now apply (shorten_sound_step P r base ov n).
    + now apply shorten_clears_step.
Qed.

Lemma reduce_clears_step (s s' : reduce_state) :
  reduce_sound P r base s -> reduce_clears s ->
  reduce_guard s = true -> reduce_body r ov s = Ok s' ->
  reduce_clears s'.
Proof.
  intros (H0 & _ & Hinst & _) _ Hg Hb. specialize (Hinst Hg).
  apply reduce_guard_true in Hg. destruct Hg as [Hbal Hrem].
  apply reduce_body_fields in Hb. cbv zeta in Hb.
  destruct Hb as (Eb & _ & _ & _ & Er & _).
  unfold reduce_clears. rewrite Er, Eb. split; [ lia | intros Hlast ].
  replace (b_remaining s) with 1%Z in Hinst by lia.
  rewrite (factor_one r r_nonneg) in Hinst. unfold paid.
  destruct (Qgtb_spec (b_installment s + ov - b_balance s * r) (b_balance s)); lra.
Qed.

Lemma reduce_reaches_clears (s : reduce_state) :
  reaches reduce_guard (reduce_body r ov) (reduce_init P base n) s ->
  reduce_sound P r base s /\ reduce_clears s.
Proof.
  apply (reaches_invariant _ _
           (fun s => reduce_sound P r base s /\ reduce_clears s)).
  - split; [ now apply reduce_sound_init | ].
    unfold reduce_clears, reduce_init. cbn [b_remaining b_balance]. split; lia.
  - intros s0 s1 [Hs Hc] Hg Hb. split.
    + now apply (reduce_sound_step P r base ov r_nonneg ov_nonneg s0 s1).
    + now apply (reduce_clears_step s0 s1).
Qed.

Lemma shorten_final_balance (s : shorten_state) :
  reaches (shorten_guard n) (fun s => Ok (shorten_body r base s))
    (shorten_init P base ov) s ->
  shorten_guard n s = false ->
  a_balance s == 0.
Proof.
  intros Hreach Hstop.
  destruct (shorten_reaches_clears s Hreach) as [(H0 & _) (Hm & _ & Hend)].
  apply shorten_guard_false in Hstop. destruct Hstop as [Hle | Hge].
  - lra.
  - specialize (Hend ltac:(lia)). lra.
Qed.

Lemma reduce_final_balance (s : reduce_state) :
  reaches reduce_guard (reduce_body r ov) (reduce_init P base n) s ->
  reduce_guard s = false ->
  b_balance s == 0.
Proof.
  intros Hreach Hstop.
  destruct (reduce_reaches_clears s Hreach) as [(H0 & _) (Hrem & Hend)].
  apply reduce_guard_false in Hstop. destruct Hstop as [Hle | Hge].
  - lra.
  - specialize (Hend ltac:(lia)). lra.
Qed.

End Repaid.

Lemma shorten_last_entry (r base : Q) (n : Z) (s0 s : shorten_state) :
  reaches (shorten_guard n) (fun s => Ok (shorten_body r base s)) s0 s ->
  shorten_guard n s0 = true -> shorten_guard n s = false ->
  exists rest e, a_schedule s = rest ++ [e] /\ balance e = a_balance s.
Proof.
  intros Hreach Hg0 Hstop. destruct Hreach as [ | s1 s2 _ _ Hb ].
  - congruence.
  - injection Hb as <-. rewrite shorten_body_fields. cbv zeta. cbn.
    do 2 eexists. split; reflexivity.
Qed.

Lemma reduce_last_entry (r ov : Q) (s0 s : reduce_state) :
  reaches reduce_guard (reduce_body r ov) s0 s ->
  reduce_guard s0 = true -> reduce_guard s = false ->
  exists rest e, b_schedule s = rest ++ [e] /\ balance e = b_balance s.
Proof.
  intros Hreach Hg0 Hstop. destruct Hreach as [ | s1 s2 _ _ Hb ].
  - congruence.
  - apply reduce_body_fields in Hb. cbv zeta in Hb.
    destruct Hb as (Eb & _ & _ & Es & _). rewrite Es, Eb.
    do 2 eexists. split; reflexivity.
Qed.

Lemma shorten_starts (P base ov : Q) (n : Z) :
  0 < P -> (1 <= n)%Z -> shorten_guard n (shorten_init P base ov) = true.
Proof.
  intros HP Hn. unfold shorten_guard, shorten_init. cbn [a_balance a_month].
  rewrite Qgtb_true by assumption. cbn. lia.
Qed.

Lemma reduce_starts (P base : Q) (n : Z) :
  0 < P -> (1 <= n)%Z -> reduce_guard (reduce_init P base n) = true.
Proof.
  intros HP Hn. unfold reduce_guard, reduce_init. cbn [b_balance b_remaining].
  rewrite Qgtb_true by assumption. cbn. lia.
Qed.

(** X7.  On valid inputs both strategies pay the loan off: each schedule
    is non-empty and its last entry leaves a balance of exactly zero. *)
Theorem loan_is_paid_off (P r base ov : Q) (n : Z) :
  0 < P -> 0 <= r -> 0 <= ov -> (1 <= n)%Z ->
  annuity_payment P r n = Ok base ->
  exists ra rb,
    calculate_shorten_term P r base ov n = Ok ra /\
    calculate_reduce_payment P r base ov n = Ok rb /\
    (exists rest e, schedule ra = rest ++ [e] /\ balance e == 0) /\
    (exists rest e, schedule rb = rest ++ [e] /\ balance e == 0).
Proof.
  intros HP Hr Hov Hn Hbase.
  pose proof (annuity_payment_base P r base n Hn Hbase) as Hf.
  destruct (simulators_run P r base ov n)
    as (sa & sb & Hra & Hrb & Ha & Hstop_a & Hb & Hstop_b).
  do 2 eexists. split; [ eassumption | split; [ eassumption | ] ]. cbn. split.
  - destruct (shorten_last_entry r base n _ sa Ha (shorten_starts P base ov n HP Hn)
                Hstop_a) as (rest & e & Hs & He).
    exists rest, e. split; [ assumption | ]. rewrite He.
    now apply (shorten_final_balance P r base ov n).
  - destruct (reduce_last_entry r ov _ sb Hb (reduce_starts P base n HP Hn) Hstop_b)
      as (rest & e & Hs & He).
    exists rest, e. split; [ assumption | ]. rewrite He.
    now apply (reduce_final_balance P r base ov n).
Qed.

Lemma loan_is_paid_off_witness :
  exists ra rb,
    calculate_shorten_term 1000 (1 # 10) (1331000000 # 3310000) 100 3 = Ok ra /\
    calculate_reduce_payment 1000 (1 # 10) (1331000000 # 3310000) 100 3 = Ok rb /\
    (exists rest e, schedule ra = rest ++ [e] /\ balance e == 0) /\
    (exists rest e, schedule rb = rest ++ [e] /\ balance e == 0).
Proof.
  apply (loan_is_paid_off 1000 (1 # 10) (1331000000 # 3310000) 100 3);
    [ reflexivity | unfold Qle; simpl; lia | unfold Qle; simpl; lia | lia
    | reflexivity ].
Defined.

Lemma ledger_principal_from (r prev acc : Q) (sched : list MonthlyEntry) :
  ledger r prev sched ->
  fold_left Qplus (map principal sched) acc
  == acc + (prev - last_balance prev sched).
Proof.
  revert prev acc. induction sched as [ | e rest IH ]; intros prev acc; cbn.
  - intros _. ring.
  - intros [[_ Hbal] Hrest]. rewrite (IH _ _ Hrest), Hbal. ring.
Qed.

Lemma ledger_principal_sum (r prev : Q) (sched : list MonthlyEntry) :
  ledger r prev sched ->
  py_sum (map principal sched) == prev - last_balance prev sched.
Proof.
  intros H. unfold py_sum. rewrite (ledger_principal_from r prev 0 sched H). ring.
Qed.

(** X8.  Over exact arithmetic (floats read as exact rationals): on
    valid inputs the principal portions of each schedule add up to exactly
    the amount borrowed. *)
Theorem principal_portions_sum_to_loan (P r base ov : Q) (n : Z) :
  0 < P -> 0 <= r -> 0 <= ov -> (1 <= n)%Z ->
  annuity_payment P r n = Ok base ->
  exists ra rb,
    calculate_shorten_term P r base ov n = Ok ra /\
    calculate_reduce_payment P r base ov n = Ok rb /\
    py_sum (map principal (schedule ra)) == P /\
    py_sum (map principal (schedule rb)) == P.
Proof.
  intros HP Hr Hov Hn Hbase.
  pose proof (annuity_payment_base P r base n Hn Hbase) as Hf.
  destruct (simulators_run P r base ov n)
    as (sa & sb & Hra & Hrb & Ha & Hstop_a & Hb & Hstop_b).
  do 2 eexists. split; [ eassumption | split; [ eassumption | ] ]. cbn.
  destruct (shorten_reaches_books P r base ov n sa Ha) as (La & Ea & _).
  destruct (reduce_reaches_books P r base ov n sb Hb) as (Lb & Eb & _).
  pose proof (shorten_final_balance P r base ov n HP Hr Hov Hn Hf sa Ha Hstop_a) as Za.
  pose proof (reduce_final_balance P r base ov n HP Hr Hov Hn Hf sb Hb Hstop_b) as Zb.
  split.
  - rewrite (ledger_principal_sum r P _ La), <- Ea, Za. ring.
  - rewrite (ledger_principal_sum r P _ Lb), <- Eb, Zb. ring.
Qed.

Lemma principal_portions_sum_to_loan_witness :
  exists ra rb,
    calculate_shorten_term 1000 (1 # 10) (1331000000 # 3310000) 100 3 = Ok ra /\
    calculate_reduce_payment 1000 (1 # 10) (1331000000 # 3310000) 100 3 = Ok rb /\
    py_sum (map principal (schedule ra)) == 1000 /\
    py_sum (map principal (schedule rb)) == 1000.
Proof.
  apply (principal_portions_sum_to_loan 1000 (1 # 10) (1331000000 # 3310000) 100 3);
    [ reflexivity | unfold Qle; simpl; lia | unfold Qle; simpl; lia | lia
    | reflexivity ].
Defined.

(** ** Two loops in lockstep *)

(** If a relation between the states of two loops is kept while the first
    loop runs, with the second running along, and what is wanted follows
    once the first has stopped, however far the second still goes, then it
    holds of the two final states. *)
Lemma lockstep {S1 S2 : Type}
  (g1 : S1 -> bool) (b1 : S1 -> outcome S1)
  (g2 : S2 -> bool) (b2 : S2 -> outcome S2)
  (R Q : S1 -> S2 -> Prop) :
  (forall s1 s2, R s1 s2 -> g1 s1 = true ->
     exists s1' s2',
       b1 s1 = Ok s1' /\ g2 s2 = true /\ b2 s2 = Ok s2' /\ R s1' s2') ->
  (forall s1 s2 f2, R s1 s2 -> g1 s1 = false -> reaches g2 b2 s2 f2 ->
     g2 f2 = false -> Q s1 f2) ->
  forall fuel s1 s2 f1 f2,
    R s1 s2 ->
    while g1 b1 fuel s1 = Ok f1 -> while g2 b2 fuel s2 = Ok f2 ->
    Q f1 f2.
Proof.
  intros Hstep Hstop fuel.
  induction fuel as [ | f IH ]; intros s1 s2 f1 f2 HR H1 H2;
    destruct (g1 s1) eqn:Hg1.
  - cbn in H1. rewrite Hg1 in H1. discriminate.
  - rewrite while_exit in H1 by assumption. injection H1 as <-.
    apply while_reaches in H2. destruct H2 as [Hr Hg2]. eauto.
  - destruct (Hstep s1 s2 HR Hg1) as (s1' & s2' & E1 & Hg2 & E2 & HR').
    rewrite (while_enter _ _ _ _ _ Hg1 E1) in H1.
    rewrite (while_enter _ _ _ _ _ Hg2 E2) in H2.
    eapply IH; eassumption.
  - rewrite while_exit in H1 by assumption. injection H1 as <-.
    apply while_reaches in H2. destruct H2 as [Hr Hg2]. eauto.
Qed.

Lemma shorten_progress (r base : Q) (n : Z) (s0 s : shorten_state) :
  0 <= r -> 0 <= a_balance s0 ->
  reaches (shorten_guard n) (fun s => Ok (shorten_body r base s)) s0 s ->
  (a_month s0 <= a_month s)%Z /\
  a_total_interest s0 <= a_total_interest s /\
  0 <= a_balance s.
Proof.
  intros Hr H0.
  apply (reaches_invariant _ _
           (fun s => (a_month s0 <= a_month s)%Z /\
                     a_total_interest s0 <= a_total_interest s /\
                     0 <= a_balance s)).
  - split_and; [ lia | lra | assumption ].
  - intros s1 s2 (Hm & Hti & Hbal) _ [= <-].
    rewrite shorten_body_fields. cbv zeta. cbn [a_month a_total_interest a_balance].
    pose proof (paid_le_balance (a_payment s1) (a_balance s1 * r) (a_balance s1)).
    assert (0 <= a_balance s1 * r) by (apply Qmult_le_0_compat; assumption).
    split_and; [ lia | lra | lra ].
Qed.

(** ** More overpayment, sooner done *)

Section MoreOverpayment.

Variables (P r base ov ov' : Q) (n : Z).
Hypothesis P_pos : 0 < P.
Hypothesis r_nonneg : 0 <= r.
Hypothesis ov'_nonneg : 0 <= ov'.
Hypothesis ov_more : ov' <= ov.
Hypothesis n_pos : (1 <= n)%Z.
Hypothesis base_factor : base == P * factor r n.

Lemma shorten_leads_step (s s' : shorten_state) :
  shorten_leads P base ov ov' s s' -> shorten_guard n s = true ->
  exists t t',
    Ok (shorten_body r base s) = Ok t /\
    shorten_guard n s' = true /\
    Ok (shorten_body r base s') = Ok t' /\
    shorten_leads P base ov ov' t t'.
Proof.
  intros (Hm & Hbal & Hti & Hs & Hs') Hg.
  pose proof (shorten_guard_true _ _ Hg) as [Hpos Hlt].
  assert (Hg' : shorten_guard n s' = true).
  { unfold shorten_guard. rewrite Qgtb_true by lra. cbn. lia. }
  do 2 eexists. split; [ reflexivity | split; [ assumption | split; [ reflexivity | ] ] ].
  pose proof (shorten_sound_step P r base ov n P_pos r_nonneg ltac:(lra) n_pos
                base_factor s Hs Hg) as Ht.
  pose proof (shorten_sound_step P r base ov' n P_pos r_nonneg ov'_nonneg n_pos
                base_factor s' Hs' Hg') as Ht'.
  destruct Hs as (_ & _ & Hpay & _). specialize (Hpay Hpos).
  destruct Hs' as (_ & _ & Hpay' & _). specialize (Hpay' ltac:(lra)).
  assert (Hi : a_balance s * r <= a_balance s' * r)
    by (apply Qmult_le_compat_r; assumption).
  unfold shorten_leads. split_and; try assumption.
  - rewrite !shorten_body_fields. cbn. lia.
  - destruct Ht' as (H0' & _). revert H0'.
    rewrite !shorten_body_fields. cbn. unfold paid.
    destruct (Qgtb_spec (a_payment s - a_balance s * r) (a_balance s));
      destruct (Qgtb_spec (a_payment s' - a_balance s' * r) (a_balance s'));
      lra.
  - rewrite !shorten_body_fields. cbn. lra.
Qed.

Lemma shorten_leads_to_the_end (fuel : nat) (s s' f f' : shorten_state) :
  shorten_leads P base ov ov' s s' ->
  while (shorten_guard n) (fun s => Ok (shorten_body r base s)) fuel s = Ok f ->
  while (shorten_guard n) (fun s => Ok (shorten_body r base s)) fuel s' = Ok f' ->
  (a_month f <= a_month f')%Z /\ a_total_interest f <= a_total_interest f'.
Proof.
  apply (lockstep _ _ _ _ (shorten_leads P base ov ov')
           (fun f f' => (a_month f <= a_month f')%Z /\
                        a_total_interest f <= a_total_interest f')).
  - intros t t' HR Hg. now apply shorten_leads_step.
  - intros t t' f2 (Hm & _ & Hti & _ & (H0 & _)) _ Hreach _.
    destruct (shorten_progress r base n t' f2 r_nonneg H0 Hreach) as (Hm' & Hti' & _).
    split; [ lia | lra ].
Qed.

Lemma reduce_leads_step (s s' : reduce_state) :
  reduce_leads P r base s s' -> reduce_guard s = true ->
  exists t t',
    reduce_body r ov s = Ok t /\
    reduce_guard s' = true /\
    reduce_body r ov' s' = Ok t' /\
    reduce_leads P r base t t'.
Proof.
  intros (Hm & Hrem & Hbal & Hti & Hs & Hs') Hg.
  pose proof (reduce_guard_true _ Hg) as [Hpos Hlt].
  assert (Hg' : reduce_guard s' = true).
  { unfold reduce_guard. rewrite Qgtb_true by lra. cbn. lia. }
  destruct (reduce_body_ok r ov s) as (t & Et).
  destruct (reduce_body_ok r ov' s') as (t' & Et').
  exists t, t'. split; [ assumption | split; [ assumption | split; [ assumption | ] ] ].
  pose proof (reduce_sound_step P r base ov r_nonneg ltac:(lra) s t Hs Hg Et) as Ht.
  pose proof (reduce_sound_step P r base ov' r_nonneg ov'_nonneg s' t' Hs' Hg' Et')
    as Ht'.
  destruct Hs as (_ & _ & Hinst & _). specialize (Hinst Hg).
  destruct Hs' as (_ & _ & Hinst' & _). specialize (Hinst' Hg').
  rewrite <- Hrem in Hinst'.
  pose proof (factor_le_growth r r_nonneg (b_remaining s) ltac:(lia)) as Hc.
  set (c := factor r (b_remaining s)) in *.
  assert (Hi : b_balance s * r <= b_balance s' * r)
    by (apply Qmult_le_compat_r; assumption).
  assert (Hk : b_balance s * (1 + r - c) <= b_balance s' * (1 + r - c))
    by (apply Qmult_le_compat_r; lra).
  destruct Ht' as (H0' & Ht').
  apply reduce_body_fields in Et. cbv zeta in Et.
  destruct Et as (Eb & Em & Et & _ & Er & _).
  apply reduce_body_fields in Et'. cbv zeta in Et'.
  destruct Et' as (Eb' & Em' & Et' & _ & Er' & _).
  unfold reduce_leads. split_and; try assumption.
  - lia.
  - lia.
  - rewrite Eb' in H0'. rewrite Eb, Eb'. unfold paid in *.
    destruct (Qgtb_spec (b_installment s + ov - b_balance s * r) (b_balance s));
      destruct (Qgtb_spec (b_installment s' + ov' - b_balance s' * r) (b_balance s'));
      lra.
  - rewrite Et, Et'. lra.
  - split; assumption.
Qed.

Lemma reduce_leads_to_the_end (fuel : nat) (s s' f f' : reduce_state) :
  reduce_leads P r base s s' ->
  while reduce_guard (reduce_body r ov) fuel s = Ok f ->
  while reduce_guard (reduce_body r ov') fuel s' = Ok f' ->
  (b_month f <= b_month f')%Z /\ b_total_interest f <= b_total_interest f'.
Proof.
  apply (lockstep _ _ _ _ (reduce_leads P r base)
           (fun f f' => (b_month f <= b_month f')%Z /\
                        b_total_interest f <= b_total_interest f')).
  - intros t t' HR Hg. now apply reduce_leads_step.
  - intros t t' f2 (Hm & _ & _ & Hti & _ & (H0 & _)) _ Hreach _.
    destruct (reduce_progress r ov' t' f2 r_nonneg H0 Hreach) as (Hm' & Hti' & _).
    split; [ lia | lra ].
Qed.

Lemma more_overpayment_is_faster :
  exists ra rb ra' rb',
    calculate_shorten_term P r base ov n = Ok ra /\
    calculate_reduce_payment P r base ov n = Ok rb /\
    calculate_shorten_term P r base ov' n = Ok ra' /\
    calculate_reduce_payment P r base ov' n = Ok rb' /\
    (months ra <= months ra')%Z /\ total_interest ra <= total_interest ra' /\
    (months rb <= months rb')%Z /\ total_interest rb <= total_interest rb'.
Proof.
  destruct (shorten_returns P r base ov n) as (sa & Hwa & Hra).
  destruct (reduce_returns P r base ov n) as (sb & Hwb & Hrb).
  destruct (shorten_returns P r base ov' n) as (sa' & Hwa' & Hra').
  destruct (reduce_returns P r base ov' n) as (sb' & Hwb' & Hrb').
  do 4 eexists. split_and; try eassumption; cbn.
  - eapply (shorten_leads_to_the_end _ _ _ sa sa'); [ | eassumption | eassumption ].
    unfold shorten_leads, shorten_init. cbn [a_month a_balance a_total_interest].
    split_and; [ reflexivity | lra | lra | | ];
      apply shorten_sound_init; assumption.
  - eapply (shorten_leads_to_the_end _ _ _ sa sa'); [ | eassumption | eassumption ].
    unfold shorten_leads, shorten_init. cbn [a_month a_balance a_total_interest].
    split_and; [ reflexivity | lra | lra | | ];
      apply shorten_sound_init; assumption.
  - eapply (reduce_leads_to_the_end _ _ _ sb sb'); [ | eassumption | eassumption ].
    unfold reduce_leads, reduce_init.
    cbn [b_month b_balance b_total_interest b_remaining].
    split_and; [ reflexivity | reflexivity | lra | lra | | ];
      apply reduce_sound_init; assumption.
  - eapply (reduce_leads_to_the_end _ _ _ sb sb'); [ | eassumption | eassumption ].
    unfold reduce_leads, reduce_init.
    cbn [b_month b_balance b_total_interest b_remaining].
    split_and; [ reflexivity | reflexivity | lra | lra | | ];
      apply reduce_sound_init; assumption.
Qed.

End MoreOverpayment.

Lemma zero_overpayment_interest (P r base : Q) (n : Z) (ra rb : StrategyResult) :
  0 < P -> 0 <= r -> (1 <= n)%Z -> base == P * factor r n ->
  calculate_shorten_term P r base 0 n = Ok ra ->
  calculate_reduce_payment P r base 0 n = Ok rb ->
  total_interest ra == calculate_baseline_interest P r base n /\
  total_interest rb == calculate_baseline_interest P r base n.
Proof.
  intros HP Hr Hn Hf Hra Hrb.
  destruct (simulators_run P r base 0 n)
    as (sa & sb & Hra' & Hrb' & Ha & Hstop_a & Hb & Hstop_b).
  rewrite Hra' in Hra. rewrite Hrb' in Hrb.
  injection Hra as <-. injection Hrb as <-. cbn [total_interest].
  pose proof (shorten_reaches_on_baseline P r base n HP Hr Hn Hf sa Ha) as Ia.
  destruct (reduce_reaches_on_baseline P r base n HP Hr Hn Hf sb Hb) as [Hrem Ib].
  apply shorten_guard_false in Hstop_a. apply reduce_guard_false in Hstop_b.
  split.
  - now destruct (on_baseline_final P r base n Hr Hn Hf _ _ _ _ Ia Hstop_a).
  - destruct (on_baseline_final P r base n Hr Hn Hf _ _ _ _ Ib) as [_ H];
      [ destruct Hstop_b; [ now left | right; lia ] | assumption ].
Qed.

(** X9.  Raising the overpayment never lengthens the shorten-term
    strategy and never raises its total interest. *)
Theorem shorten_term_monotone_in_overpayment (P r base ov ov' : Q) (n : Z) :
  0 < P -> 0 <= r -> (1 <= n)%Z -> 0 <= ov' -> ov' <= ov ->
  annuity_payment P r n = Ok base ->
  exists ra ra',
    calculate_shorten_term P r base ov n = Ok ra /\
    calculate_shorten_term P r base ov' n = Ok ra' /\
    (months ra <= months ra')%Z /\
    total_interest ra <= total_interest ra'.
Proof.
  intros HP Hr Hn Hov' Hov Hbase.
  pose proof (annuity_payment_base P r base n Hn Hbase) as Hf.
  destruct (more_overpayment_is_faster P r base ov ov' n HP Hr Hov' Hov Hn Hf)
    as (ra & _ & ra' & _ & Ha & _ & Ha' & _ & Hm & Hti & _).
  exists ra, ra'. split_and; assumption.
Qed.

Lemma shorten_term_monotone_in_overpayment_witness :
  exists ra ra',
    calculate_shorten_term 1000 (1 # 10) (1331000000 # 3310000) 200 3 = Ok ra /\
    calculate_shorten_term 1000 (1 # 10) (1331000000 # 3310000) 100 3 = Ok ra' /\
    (months ra <= months ra')%Z /\
    total_interest ra <= total_interest ra'.
Proof.
  apply (shorten_term_monotone_in_overpayment 1000 (1 # 10)
           (1331000000 # 3310000) 200 100 3);
    [ reflexivity | unfold Qle; simpl; lia | lia | unfold Qle; simpl; lia
    | unfold Qle; simpl; lia | reflexivity ].
Defined.



(** X11.  Over exact arithmetic (floats read as exact rationals): with
    a non-negative overpayment neither strategy pays more interest than the
    baseline schedule. *)
Theorem strategies_never_cost_more_than_baseline (P r base ov : Q) (n : Z) :
  0 < P -> 0 <= r -> (1 <= n)%Z -> 0 <= ov ->
  annuity_payment P r n = Ok base ->
  exists ra rb,
    calculate_shorten_term P r base ov n = Ok ra /\
    calculate_reduce_payment P r base ov n = Ok rb /\
    total_interest ra <= calculate_baseline_interest P r base n /\
    total_interest rb <= calculate_baseline_interest P r base n.
Proof.
  intros HP Hr Hn Hov Hbase.
  pose proof (annuity_payment_base P r base n Hn Hbase) as Hf.
  destruct (more_overpayment_is_faster P r base ov 0 n HP Hr ltac:(lra) Hov Hn Hf)
    as (ra & rb & ra' & rb' & Ha & Hb & Ha' & Hb' & _ & Hta & _ & Htb).
  destruct (zero_overpayment_interest P r base n ra' rb' HP Hr Hn Hf Ha' Hb')
    as [Ea Eb].
  exists ra, rb. split_and; try assumption; lra.
Qed.

Lemma strategies_never_cost_more_than_baseline_witness :
  exists ra rb,
    calculate_shorten_term 1000 (1 # 10) (1331000000 # 3310000) 100 3 = Ok ra /\
    calculate_reduce_payment 1000 (1 # 10) (1331000000 # 3310000) 100 3 = Ok rb /\
    total_interest ra
      <= calculate_baseline_interest 1000 (1 # 10) (1331000000 # 3310000) 3 /\
    total_interest rb
      <= calculate_baseline_interest 1000 (1 # 10) (1331000000 # 3310000) 3.
Proof.
  apply (strategies_never_cost_more_than_baseline 1000 (1 # 10)
           (1331000000 # 3310000) 100 3);
    [ reflexivity | unfold Qle; simpl; lia | lia | unfold Qle; simpl; lia
    | reflexivity ].
Defined.

(** ** The final installment of strategy B *)

Lemma reduce_installment_step (P r base ov : Q) (s s' : reduce_state) :
  0 <= r -> 0 <= ov ->
  reduce_sound P r base s -> reduce_guard s = true ->
  reduce_body r ov s = Ok s' ->
  b_installment s' <= b_installment s /\
  (reduce_guard s' = true ->
     b_installment s'
     == b_installment s - factor r (b_remaining s') * ov /\
     0 < factor r (b_remaining s') /\
     0 < b_installment s').
Proof.
  intros Hr Hov (_ & _ & Hinst & _) Hg Hb. specialize (Hinst Hg).
  pose proof (reduce_recalc r ov Hr s s' Hinst Hg Hb) as Hrecalc.
  destruct (reduce_guard s') eqn:Hg'.
  - destruct (Hrecalc eq_refl) as (E' & E & Hrem').
    pose proof (factor_pos r Hr _ Hrem') as Hc.
    pose proof (reduce_guard_true s' Hg') as [Hbal' _].
    assert (0 <= factor r (b_remaining s') * ov) by (apply Qmult_le_0_compat; lra).
    assert (0 < factor r (b_remaining s') * b_balance s')
      by (apply Qmult_lt_0_compat; assumption).
    split; [ lra | intros _; split_and; [ assumption | assumption | lra ] ].
  - apply reduce_body_fields in Hb. cbv zeta in Hb.
    destruct Hb as (_ & _ & _ & _ & _ & Ei). rewrite Hg' in Ei.
    split; [ rewrite Ei; lra | discriminate ].
Qed.

Lemma reduce_reaches_lowered (P r base ov : Q) (n : Z) (s : reduce_state) :
  0 < P -> 0 <= r -> 0 < ov -> (1 <= n)%Z -> base == P * factor r n ->
  reaches reduce_guard (reduce_body r ov) (reduce_init P base n) s ->
  reduce_sound P r base s /\ reduce_shape n s /\ reduce_lowered base s.
Proof.
  intros HP Hr Hov Hn Hf.
  apply (reaches_invariant _ _
           (fun s => reduce_sound P r base s /\ reduce_shape n s /\
                     reduce_lowered base s)).
  - split_and.
    + now apply reduce_sound_init.
    + unfold reduce_shape, reduce_init. cbn.
      split_and; [ reflexivity | lia | lia | apply numbered_nil ].
    + unfold reduce_lowered, reduce_init. cbn [b_installment b_month].
      split_and; [ | lia | lia ].
      rewrite Hf. apply Qmult_lt_0_compat; [ assumption | now apply factor_pos ].
  - intros s0 s1 (Hs & Hshape & Hpos & H1 & H2) Hg Hb.
    pose proof (reduce_installment_step P r base ov s0 s1 Hr ltac:(lra) Hs Hg Hb)
      as [Hle Hrec].
    pose proof (reduce_sound_step P r base ov Hr ltac:(lra) s0 s1 Hs Hg Hb) as Hs1.
    pose proof (reduce_shape_step r ov n s0 s1 Hshape Hg Hb) as Hshape1.
    destruct Hs as (_ & Hbase & _). destruct Hshape as (Hlen & _).
    pose proof Hb as Hb'. apply reduce_body_fields in Hb'. cbv zeta in Hb'.
    destruct Hb' as (_ & Em & _).
    unfold reduce_lowered. split_and; try assumption.
    + destruct (reduce_guard s1) eqn:Hg1; [ now apply Hrec | ].
      apply reduce_body_fields in Hb. cbv zeta in Hb.
      destruct Hb as (_ & _ & _ & _ & _ & Ei). rewrite Hg1 in Ei.
      now rewrite Ei.
    + intros Hm1 Hg1. destruct (Hrec Hg1) as (E & Hc & _).
      assert (0 < factor r (b_remaining s1) * ov)
        by (apply Qmult_lt_0_compat; assumption).
      lra.
    + intros Hm2. destruct (Z.eq_dec (b_month s0) 1) as [He | Hne].
      * specialize (H1 He Hg). lra.
      * specialize (H2 ltac:(lia)). lra.
Qed.

Lemma reduce_reaches_unchanged (P r base ov : Q) (n : Z) (s : reduce_state) :
  0 < P -> 0 <= r -> ov == 0 -> base == P * factor r n ->
  reaches reduce_guard (reduce_body r ov) (reduce_init P base n) s ->
  reduce_sound P r base s /\ b_installment s == base.
Proof.
  intros HP Hr Hov Hf.
  apply (reaches_invariant _ _
           (fun s => reduce_sound P r base s /\ b_installment s == base)).
  - split; [ now apply reduce_sound_init | reflexivity ].
  - intros s0 s1 (Hs & E) Hg Hb.
    pose proof (reduce_installment_step P r base ov s0 s1 Hr ltac:(lra) Hs Hg Hb)
      as [_ Hrec].
    split; [ now apply (reduce_sound_step P r base ov Hr ltac:(lra) s0 s1) | ].
    destruct (reduce_guard s1) eqn:Hg1.
    + destruct (Hrec eq_refl) as (E' & _). rewrite E', Hov, E. ring.
    + apply reduce_body_fields in Hb. cbv zeta in Hb.
      destruct Hb as (_ & _ & _ & _ & _ & Ei). rewrite Hg1 in Ei.
      now rewrite Ei.
Qed.

(** X12.  Over exact arithmetic (floats read as exact rationals): on
    valid inputs the final installment of the reduce-payment strategy is
    never above the base installment; it equals the base installment when
    nothing is overpaid; and when something is, it is positive, and
    strictly below the base installment if the loan lasts at least two
    periods. *)
Theorem final_installment_bounds (P r base ov : Q) (n : Z) :
  0 < P -> 0 <= r -> 0 <= ov -> (1 <= n)%Z ->
  annuity_payment P r n = Ok base ->
  exists rb,
    calculate_reduce_payment P r base ov n = Ok rb /\
    final_installment rb <= base /\
    (ov == 0 -> final_installment rb == base) /\
    (0 < ov -> 0 < final_installment rb /\
               ((2 <= months rb)%Z -> final_installment rb < base)).
Proof.
  intros HP Hr Hov Hn Hbase.
  pose proof (annuity_payment_base P r base n Hn Hbase) as Hf.
  destruct (simulators_run P r base ov n) as (_ & sb & _ & Hrb & _ & _ & Hb & Hstop).
  eexists. split; [ eassumption | ]. cbn [final_installment months].
  pose proof (reduce_reaches_sound P r base ov n HP Hr Hov Hf sb Hb)
    as (_ & Hle & _).
  split_and.
  - assumption.
  - intros Hzero.
    now destruct (reduce_reaches_unchanged P r base ov n sb HP Hr Hzero Hf Hb).
  - intros Hpos.
    destruct (reduce_reaches_lowered P r base ov n sb HP Hr Hpos Hn Hf Hb)
      as (_ & _ & Hinst & _ & H2).
    split; assumption.
Qed.

Lemma final_installment_bounds_witness :
  exists rb,
    calculate_reduce_payment 1000 (1 # 10) (1331000000 # 3310000) 100 3 = Ok rb /\
    final_installment rb <= (1331000000 # 3310000) /\
    (100 == 0 -> final_installment rb == (1331000000 # 3310000)) /\
    (0 < 100 -> 0 < final_installment rb /\
                ((2 <= months rb)%Z ->
                 final_installment rb < (1331000000 # 3310000))).
Proof.
  apply (final_installment_bounds 1000 (1 # 10) (1331000000 # 3310000) 100 3);
    [ reflexivity | unfold Qle; simpl; lia | unfold Qle; simpl; lia | lia
    | reflexivity ].
Defined.

(** ** Overpaying saves interest *)

Lemma reduce_first_interest (r ov : Q) (s0 f : reduce_state) :
  0 <= r -> 0 <= b_balance s0 ->
  reaches reduce_guard (reduce_body r ov) s0 f ->
  reduce_guard s0 = true -> reduce_guard f = false ->
  b_total_interest s0 + b_balance s0 * r <= b_total_interest f.
Proof.
  intros Hr H0 Hreach Hg0 Hstop.
  assert (H : f = s0 \/
              (b_total_interest s0 + b_balance s0 * r <= b_total_interest f /\
               0 <= b_balance f)).
  { clear Hstop. revert f Hreach.
    apply (reaches_invariant _ _
             (fun f => f = s0 \/
                       (b_total_interest s0 + b_balance s0 * r
                        <= b_total_interest f /\ 0 <= b_balance f))).
    - now left.
    - intros s1 s2 HI _ Hb. right.
      apply reduce_body_fields in Hb. cbv zeta in Hb.
      destruct Hb as (Eb & _ & Et & _). rewrite Eb, Et.
      pose proof (paid_le_balance (b_installment s1 + ov) (b_balance s1 * r)
                    (b_balance s1)).
      destruct HI as [-> | [Hti Hbal]].
      + split; lra.
      + assert (0 <= b_balance s1 * r) by (apply Qmult_le_0_compat; assumption).
        split; lra. }
  destruct H as [-> | [H _]]; [ congruence | assumption ].
Qed.

Section Saving.

Variables (P r base ov : Q) (n : Z).
Hypothesis P_pos : 0 < P.
Hypothesis r_pos : 0 < r.
Hypothesis ov_pos : 0 < ov.
Hypothesis n_two : (2 <= n)%Z.
Hypothesis base_factor : base == P * factor r n.

Lemma reduce_saves_step (s s' : reduce_state) :
  reduce_saves P r base n s s' -> reduce_guard s = true ->
  exists t t',
    reduce_body r ov s = Ok t /\
    reduce_guard s' = true /\
    reduce_body r 0 s' = Ok t' /\
    reduce_saves P r base n t t'.
Proof.
  intros (Hlead & Hbase & Hm0 & H0 & H1 & H2) Hg.
  destruct (reduce_leads_step P r base ov 0 ltac:(lra) ltac:(lra) ltac:(lra)
              s s' Hlead Hg) as (t & t' & Et & Hg' & Et' & Hlead').
  exists t, t'. split; [ assumption | split; [ assumption | split; [ assumption | ] ] ].
  pose proof (reduce_on_baseline_step P r base n ltac:(lra) s' t' Hbase Hg' Et')
    as Hbase'.
  destruct Hlead as (Hm & _ & Hbal & Hti & _).
  destruct Hbase as [Hrem Hon].
  pose proof (reduce_guard_true s' Hg') as [Hpos' Hrem'].
  destruct (on_baseline_uncapped P r base n ltac:(lra) _ _ _ _ Hon ltac:(lia))
    as [_ Hp'].
  pose proof Hbase' as [Hrem1 (_ & _ & _ & Hreq1 & _)].
  assert (Hi : b_balance s * r <= b_balance s' * r)
    by (apply Qmult_le_compat_r; lra).
  apply reduce_body_fields in Et. cbv zeta in Et.
  destruct Et as (Eb & Em & Eti & _).
  apply reduce_body_fields in Et'. cbv zeta in Et'.
  destruct Et' as (Eb' & Em' & Eti' & _).
  unfold reduce_saves. split_and; try assumption.
  - lia.
  - intros Hzero. lia.
  - intros Hone. assert (Hz : b_month s = 0%Z) by lia.
    destruct (H0 Hz) as [Ebal Einst].
    destruct (Hreq1 ltac:(lia)) as [Hpos1 _].
    assert (Ei : b_balance s * r == b_balance s' * r) by (now rewrite Ebal).
    rewrite Eb' in Hpos1. rewrite Eb, Eb'. rewrite Hp' in *. unfold paid.
    destruct (Qgtb_spec (b_installment s + ov - b_balance s * r) (b_balance s)); lra.
  - intros Htwo. rewrite Eti, Eti'.
    destruct (Z.eq_dec (b_month s) 1) as [He | Hne].
    + specialize (H1 He).
      assert (b_balance s * r < b_balance s' * r)
        by (apply Qmult_lt_compat_r; assumption).
      lra.
    + specialize (H2 ltac:(lia)). lra.
Qed.

Lemma reduce_saves_stop (s s' f' : reduce_state) :
  reduce_saves P r base n s s' -> reduce_guard s = false ->
  reaches reduce_guard (reduce_body r 0) s' f' -> reduce_guard f' = false ->
  b_total_interest s < b_total_interest f'.
Proof.
  intros (Hlead & [Hrem' Hon] & Hm0 & H0 & H1 & H2) Hstop Hreach Hstop'.
  destruct Hlead as (Hm & Hrem & Hbal & Hti & (Hs0 & _) & (Hs0' & _)).
  destruct Hon as (_ & _ & _ & Hreq & _).
  destruct (reduce_progress r 0 s' f' ltac:(lra) Hs0' Hreach) as (_ & Hti' & _).
  apply reduce_guard_false in Hstop.
  destruct (Z.eq_dec (b_month s) 0) as [Hz | Hnz].
  - destruct (H0 Hz) as [Ebal _]. destruct (Hreq ltac:(lia)) as [Hpos' _].
    destruct Hstop; [ lra | lia ].
  - destruct (Z.eq_dec (b_month s) 1) as [He | Hne].
    + specialize (H1 He).
      assert (Hg' : reduce_guard s' = true).
      { unfold reduce_guard. rewrite Qgtb_true by lra. cbn. lia. }
      pose proof (reduce_first_interest r 0 s' f' ltac:(lra) Hs0' Hreach Hg' Hstop').
      assert (0 < b_balance s' * r) by (apply Qmult_lt_0_compat; lra).
      lra.
    + specialize (H2 ltac:(lia)). lra.
Qed.

Lemma reduce_saves_to_the_end (f f' : reduce_state) :
  while reduce_guard (reduce_body r ov) (Z.to_nat n) (reduce_init P base n) = Ok f ->
  while reduce_guard (reduce_body r 0) (Z.to_nat n) (reduce_init P base n) = Ok f' ->
  b_total_interest f < b_total_interest f'.
Proof.
  apply (lockstep _ _ _ _ (reduce_saves P r base n)
           (fun f f' => b_total_interest f < b_total_interest f')).
  - intros s s' HR Hg. now apply reduce_saves_step.
  - intros s s' f2 HR Hg Hreach Hstop. now apply (reduce_saves_stop s s' f2).
  - unfold reduce_saves. split_and.
    + unfold reduce_leads, reduce_init.
      cbn [b_month b_balance b_total_interest b_remaining].
      split_and; [ reflexivity | reflexivity | lra | lra | | ];
        apply reduce_sound_init; assumption.
    + apply (reduce_reaches_on_baseline P r base n P_pos ltac:(lra) ltac:(lia)
               base_factor). constructor.
    + cbn. lia.
    + intros _. split; reflexivity.
    + cbn. lia.
    + cbn. lia.
Qed.

End Saving.

(** X13.  Over exact arithmetic (floats read as exact rationals): with
    a positive rate, a positive overpayment and a term of at least two
    periods, both strategies pay strictly less interest than the baseline
    schedule. *)
Theorem overpaying_saves_interest (P r base ov : Q) (n : Z) :
  0 < P -> 0 < r -> 0 < ov -> (2 <= n)%Z ->
  annuity_payment P r n = Ok base ->
  exists ra rb,
    calculate_shorten_term P r base ov n = Ok ra /\
    calculate_reduce_payment P r base ov n = Ok rb /\
    total_interest ra < calculate_baseline_interest P r base n /\
    total_interest rb < calculate_baseline_interest P r base n.
Proof.
  intros HP Hr Hov Hn Hbase.
  pose proof (annuity_payment_base P r base n ltac:(lia) Hbase) as Hf.
  destruct (shorten_returns P r base ov n) as (sa & Hwa & Hra).
  destruct (reduce_returns P r base ov n) as (sb & Hwb & Hrb).
  destruct (shorten_returns P r base 0 n) as (sa0 & Hwa0 & Hra0).
  destruct (reduce_returns P r base 0 n) as (sb0 & Hwb0 & Hrb0).
  destruct (zero_overpayment_interest P r base n _ _ HP ltac:(lra) ltac:(lia) Hf
              Hra0 Hrb0) as [_ Eb]. cbn [total_interest] in Eb.
  pose proof (reduce_saves_to_the_end P r base ov n HP Hr Hov Hn Hf sb sb0 Hwb Hwb0)
    as Hlt.
  destruct (ahead_to_the_end P r base ov n HP ltac:(lra) ltac:(lra) ltac:(lia) Hf
              (Z.to_nat n) _ _ sa sb (ahead_init P r base ov n HP Hf) Hwa Hwb)
    as [_ Hle].
  do 2 eexists. split; [ eassumption | split; [ eassumption | ] ].
  cbn [total_interest]. split; lra.
Qed.

Lemma overpaying_saves_interest_witness :
  exists ra rb,
    calculate_shorten_term 1000 (1 # 10) (1331000000 # 3310000) 100 3 = Ok ra /\
    calculate_reduce_payment 1000 (1 # 10) (1331000000 # 3310000) 100 3 = Ok rb /\
    total_interest ra
      < calculate_baseline_interest 1000 (1 # 10) (1331000000 # 3310000) 3 /\
    total_interest rb
      < calculate_baseline_interest 1000 (1 # 10) (1331000000 # 3310000) 3.
Proof.
  apply (overpaying_saves_interest 1000 (1 # 10) (1331000000 # 3310000) 100 3);
    [ reflexivity | reflexivity | reflexivity | lia | reflexivity ].
Defined.

(** ** A zero rate *)




(** ** Month by month, strategy A owes no more than strategy B *)

Lemma reduce_schedule_extends (r ov : Q) (s0 s : reduce_state) :
  reaches reduce_guard (reduce_body r ov) s0 s ->
  exists more, b_schedule s = b_schedule s0 ++ more.
Proof.
  apply (reaches_invariant _ _
           (fun s => exists more, b_schedule s = b_schedule s0 ++ more)).
  - exists []. now rewrite app_nil_r.
  - intros s1 s2 [more E] _ Hb. apply reduce_body_fields in Hb. cbv zeta in Hb.
    destruct Hb as (_ & _ & _ & Es & _). rewrite Es, E, <- app_assoc.
    eexists. reflexivity.
Qed.

Lemma Forall2_nth_error {A B : Type} (R : A -> B -> Prop)
  (l : list A) (l' : list B) (i : nat) (a : A) (b : B) :
  Forall2 R l l' -> nth_error l i = Some a -> nth_error l' i = Some b -> R a b.
Proof.
  intros H. revert i. induction H as [ | x y l l' Hxy _ IH ]; intros [ | i ]; cbn;
    try discriminate.
  - now intros [= <-] [= <-].
  - apply IH.
Qed.

Lemma ahead_on_record_to_the_end (P r base ov : Q) (n : Z)
  (fa : shorten_state) (fb : reduce_state) :
  0 < P -> 0 <= r -> 0 <= ov -> (1 <= n)%Z -> base == P * factor r n ->
  while (shorten_guard n) (fun s => Ok (shorten_body r base s)) (Z.to_nat n)
    (shorten_init P base ov) = Ok fa ->
  while reduce_guard (reduce_body r ov) (Z.to_nat n) (reduce_init P base n) = Ok fb ->
  record_dominated fa fb.
Proof.
  intros HP Hr Hov Hn Hf.
  apply (lockstep _ _ _ _ (ahead_on_record P r base ov n) record_dominated).
  - intros sa sb [Hahead Hrec] Hg.
    destruct (ahead_step P r base ov n HP Hr Hov Hn Hf sa sb Hahead Hg)
      as (sb' & Hgb & Hstep & Hahead').
    exists (shorten_body r base sa), sb'.
    split; [ reflexivity | split; [ assumption | split; [ assumption | ] ] ].
    split; [ assumption | ].
    destruct Hahead' as (_ & _ & Hbal & _). revert Hbal.
    apply reduce_body_fields in Hstep. cbv zeta in Hstep.
    destruct Hstep as (Eb & _ & _ & Es & _).
    rewrite Es, Eb, shorten_body_fields. cbv zeta. cbn [a_schedule a_balance].
    intros Hbal. apply Forall2_app; [ assumption | ].
    constructor; [ cbn; assumption | constructor ].
  - intros sa sb fb' [_ Hrec] _ Hreach _.
    destruct (reduce_schedule_extends r ov sb fb' Hreach) as [more E].
    exists (b_schedule sb), more. split; assumption.
  - split; [ now apply ahead_init | constructor ].
Qed.

(** X15.  Over exact arithmetic (floats read as exact rationals): on
    valid inputs with the same overpayment, strategy B's schedule is at
    least as long as strategy A's, and in every month that both schedules
    have, the balance left by strategy A is at most the balance left by
    strategy B. *)
Theorem shorten_term_owes_less_each_month (P r base ov : Q) (n : Z) :
  0 < P -> 0 <= r -> 0 <= ov -> (1 <= n)%Z ->
  annuity_payment P r n = Ok base ->
  exists ra rb,
    calculate_shorten_term P r base ov n = Ok ra /\
    calculate_reduce_payment P r base ov n = Ok rb /\
    (length (schedule ra) <= length (schedule rb))%nat /\
    (forall i ea eb,
       nth_error (schedule ra) i = Some ea ->
       nth_error (schedule rb) i = Some eb ->
       balance ea <= balance eb).
Proof.
  intros HP Hr Hov Hn Hbase.
  pose proof (annuity_payment_base P r base n Hn Hbase) as Hf.
  destruct (shorten_returns P r base ov n) as (sa & Hwa & Hra).
  destruct (reduce_returns P r base ov n) as (sb & Hwb & Hrb).
  do 2 eexists. split; [ eassumption | split; [ eassumption | ] ].
  cbn [schedule].
  destruct (ahead_on_record_to_the_end P r base ov n sa sb HP Hr Hov Hn Hf Hwa Hwb)
    as (pre & more & E & Hrec).
  pose proof (Forall2_length Hrec) as Hlen. split.
  - rewrite E, length_app. lia.
  - intros i ea eb Ha Hb.
    assert (Hi : (i < length pre)%nat).
    { rewrite <- Hlen. apply nth_error_Some. congruence. }
    rewrite E, nth_error_app1 in Hb by assumption.
    exact (Forall2_nth_error _ _ _ _ _ _ Hrec Ha Hb).
Qed.

Lemma shorten_term_owes_less_each_month_witness :
  exists ra rb,
    calculate_shorten_term 1000 (1 # 10) (1331000000 # 3310000) 100 3 = Ok ra /\
    calculate_reduce_payment 1000 (1 # 10) (1331000000 # 3310000) 100 3 = Ok rb /\
    (length (schedule ra) <= length (schedule rb))%nat /\
    (forall i ea eb,
       nth_error (schedule ra) i = Some ea ->
       nth_error (schedule rb) i = Some eb ->
       balance ea <= balance eb).
Proof.
  apply (shorten_term_owes_less_each_month 1000 (1 # 10)
           (1331000000 # 3310000) 100 3);
    [ reflexivity | unfold Qle; simpl; lia | unfold Qle; simpl; lia | lia
    | reflexivity ].
Defined.

(** * Properties of the caller *)

(** ** When the schedules are empty *)

Lemma schedules_empty_or_not (P r base ov : Q) (n : Z) :
  exists ra rb,
    calculate_shorten_term P r base ov n = Ok ra /\
    calculate_reduce_payment P r base ov n = Ok rb /\
    ((P <= 0 \/ (n <= 0)%Z) -> schedule ra = [] /\ schedule rb = []) /\
    ((0 < P /\ (1 <= n)%Z) -> schedule ra <> [] /\ schedule rb <> []).
Proof.
  destruct (Qlt_le_dec 0 P) as [HP | HP]; [ destruct (Z.le_gt_cases 1 n) as [Hn | Hn] | ].
  - destruct (simulators_run P r base ov n)
      as (sa & sb & Hra & Hrb & Ha & Hstop_a & Hb & Hstop_b).
    do 2 eexists. split; [ eassumption | split; [ eassumption | ] ].
    cbn [schedule]. split; [ intros [ | ]; [ lra | lia ] | intros _ ].
    destruct (shorten_last_entry r base n _ sa Ha (shorten_starts P base ov n HP Hn)
                Hstop_a) as (resta & ea & Ea & _).
    destruct (reduce_last_entry r ov _ sb Hb (reduce_starts P base n HP Hn) Hstop_b)
      as (restb & eb & Eb & _).
    rewrite Ea, Eb. split; intros H; now apply app_eq_nil in H as [_ H].
  - do 2 eexists. split; [ | split ].
    + apply shorten_no_iteration. unfold shorten_guard. cbn.
      apply andb_false_iff. right. lia.
    + apply reduce_no_iteration. unfold reduce_guard. cbn.
      apply andb_false_iff. right. lia.
    + cbn. split; [ auto | intros [_ ?]; lia ].
  - do 2 eexists. split; [ | split ].
    + apply shorten_no_iteration. unfold shorten_guard. cbn.
      now rewrite Qgtb_false by assumption.
    + apply reduce_no_iteration. unfold reduce_guard. cbn.
      now rewrite Qgtb_false by assumption.
    + cbn. split; [ auto | intros [? _]; lra ].
Qed.

(** ** Time saved *)

(** X16.  For a non-negative term the time saved shown for strategy A is
    a non-negative number of years and between 0 and 11 months, and
    together they are the term less the months strategy A needs. *)
Theorem time_saved_is_well_formed (P r base ov : Q) (n : Z) :
  (0 <= n)%Z ->
  exists ra,
    calculate_shorten_term P r base ov n = Ok ra /\
    (0 <= years_saved n ra)%Z /\
    (0 <= months_saved n ra < 12)%Z /\
    (12 * years_saved n ra + months_saved n ra = n - months ra)%Z.
Proof.
  intros Hn.
  destruct (simulators_run P r base ov n) as (sa & _ & Hra & _ & Ha & _).
  eexists. split; [ eassumption | ].
  destruct (shorten_final_shape P r base ov n sa Ha) as (_ & Hmax & _).
  unfold years_saved, months_saved. cbn [months]. split_and.
  - apply Z.div_pos; lia.
  - apply Z.mod_pos_bound. lia.
  - apply Z.mod_pos_bound. lia.
  - symmetry. apply Z.div_mod. lia.
Qed.

Lemma time_saved_is_well_formed_witness :
  exists ra,
    calculate_shorten_term 1000 (1 # 10) (1331000000 # 3310000) 100 3 = Ok ra /\
    (0 <= years_saved 3 ra)%Z /\
    (0 <= months_saved 3 ra < 12)%Z /\
    (12 * years_saved 3 ra + months_saved 3 ra = 3 - months ra)%Z.
Proof.
  apply (time_saved_is_well_formed 1000 (1 # 10) (1331000000 # 3310000) 100 3). lia.
Defined.

(** ** Sums *)

Lemma fold_left_Qplus_acc (l : list Q) (a : Q) :
  fold_left Qplus l a == a + fold_left Qplus l 0.
Proof.
  revert a. induction l as [ | x rest IH ]; intros a; cbn.
  - ring.
  - rewrite (IH (a + x)), (IH (0 + x)). ring.
Qed.

Lemma py_sum_cons (x : Q) (l : list Q) : py_sum (x :: l) == x + py_sum l.
Proof. unfold py_sum. cbn. rewrite fold_left_Qplus_acc. ring. Qed.

Lemma py_sum_plus {A : Type} (f g : A -> Q) (l : list A) :
  py_sum (map (fun a => f a + g a) l) == py_sum (map f l) + py_sum (map g l).
Proof.
  induction l as [ | a rest IH ]; cbn [map].
  - reflexivity.
  - rewrite !py_sum_cons, IH. ring.
Qed.

(** X17.  Over exact arithmetic (floats read as exact rationals): on
    valid inputs the total paid under each strategy, as the page adds it up
    from the schedule, is exactly the principal plus the strategy's total
    interest. *)
Theorem total_paid_is_principal_plus_interest (P r base ov : Q) (n : Z) :
  0 < P -> 0 <= r -> 0 <= ov -> (1 <= n)%Z ->
  annuity_payment P r n = Ok base ->
  exists ra rb,
    calculate_shorten_term P r base ov n = Ok ra /\
    calculate_reduce_payment P r base ov n = Ok rb /\
    total_paid ra == P + total_interest ra /\
    total_paid rb == P + total_interest rb.
Proof.
  intros HP Hr Hov Hn Hbase.
  pose proof (annuity_payment_base P r base n Hn Hbase) as Hf.
  destruct (simulators_run P r base ov n)
    as (sa & sb & Hra & Hrb & Ha & Hstop_a & Hb & Hstop_b).
  do 2 eexists. split; [ eassumption | split; [ eassumption | ] ].
  unfold total_paid. cbn [schedule total_interest].
  destruct (shorten_reaches_books P r base ov n sa Ha) as (La & Ea & Ta & _).
  destruct (reduce_reaches_books P r base ov n sb Hb) as (Lb & Eb & Tb & _).
  pose proof (shorten_final_balance P r base ov n HP Hr Hov Hn Hf sa Ha Hstop_a) as Za.
  pose proof (reduce_final_balance P r base ov n HP Hr Hov Hn Hf sb Hb Hstop_b) as Zb.
  split.
  - rewrite py_sum_plus, (ledger_principal_sum r P _ La), <- Ea, Za, <- Ta. ring.
  - rewrite py_sum_plus, (ledger_principal_sum r P _ Lb), <- Eb, Zb, <- Tb. ring.
Qed.

Lemma total_paid_is_principal_plus_interest_witness :
  exists ra rb,
    calculate_shorten_term 1000 (1 # 10) (1331000000 # 3310000) 100 3 = Ok ra /\
    calculate_reduce_payment 1000 (1 # 10) (1331000000 # 3310000) 100 3 = Ok rb /\
    total_paid ra == 1000 + total_interest ra /\
    total_paid rb == 1000 + total_interest rb.
Proof.
  apply (total_paid_is_principal_plus_interest 1000 (1 # 10)
           (1331000000 # 3310000) 100 3);
    [ reflexivity | unfold Qle; simpl; lia | unfold Qle; simpl; lia | lia
    | reflexivity ].
Defined.

(** ** The overpayment figures *)

Lemma accumulate_from_length (t : Q) (l : list Q) :
  length (accumulate_from t l) = length l.
Proof. revert t. induction l as [ | x rest IH ]; intros t; cbn; auto. Qed.

Lemma accumulate_length (l : list Q) : length (accumulate l) = length l.
Proof. destruct l; cbn; [ reflexivity | now rewrite accumulate_from_length ]. Qed.

Lemma py_last_none {A : Type} (l : list A) : py_last l = None <-> l = [].
Proof.
  unfold py_last. destruct l as [ | a rest ]; cbn [length Nat.eqb].
  - tauto.
  - split; [ | discriminate ]. intros H. apply nth_error_None in H. cbn in H. lia.
Qed.

Lemma py_last_cons {A : Type} (a b : A) (l : list A) :
  py_last (a :: b :: l) = py_last (b :: l).
Proof. unfold py_last. cbn. now rewrite Nat.sub_0_r. Qed.

Lemma py_last_accumulate_from (t : Q) (l : list Q) (v : Q) :
  py_last (t :: accumulate_from t l) = Some v -> v == fold_left Qplus l t.
Proof.
  revert t. induction l as [ | x rest IH ]; intros t; cbn [accumulate_from fold_left].
  - cbn. now intros [= <-].
  - rewrite py_last_cons. apply IH.
Qed.

Lemma py_last_accumulate (l : list Q) (v : Q) :
  py_last (accumulate l) = Some v -> v == py_sum l.
Proof.
  destruct l as [ | x rest ]; cbn [accumulate].
  - discriminate.
  - intros H. apply py_last_accumulate_from in H. rewrite H.
    unfold py_sum. cbn [fold_left].
    rewrite (fold_left_Qplus_acc rest x), (fold_left_Qplus_acc rest (0 + x)). ring.
Qed.

Lemma cumsum_empty (res : StrategyResult) : cumsum res = [] <-> schedule res = [].
Proof.
  unfold cumsum. split; intros H.
  - apply length_zero_iff_nil. apply (f_equal (@length Q)) in H.
    now rewrite accumulate_length, length_map in H.
  - now rewrite H.
Qed.

Lemma annuity_payment_zero_term (P r : Q) :
  annuity_payment P r 0 = Raise ZeroDivisionError.
Proof.
  unfold annuity_payment. destruct (Qgtb_spec r 0) as [Hr | Hr].
  - rewrite py_pow_nonzero by lra. cbn [bind]. apply py_div_zero. reflexivity.
  - apply py_div_zero. reflexivity.
Qed.

Lemma annuity_payment_answers (P r : Q) (n : Z) :
  n <> 0%Z -> exists v, annuity_payment P r n = Ok v.
Proof.
  intros Hn. destruct (Z.le_gt_cases 1 n) as [Hpos | Hneg].
  - destruct (annuity_payment_factor P r n Hpos) as (v & Hv & _). now exists v.
  - unfold annuity_payment. destruct (Qgtb_spec r 0) as [Hr | Hr].
    + rewrite py_pow_nonzero by lra. cbn [bind].
      eexists. apply py_div_nonzero.
      pose proof (Qpower_lt_compat_l (1 + r) n 0 ltac:(lia) ltac:(lra)) as Hlt.
      change ((1 + r) ^ 0) with 1 in Hlt. lra.
    + eexists. apply py_div_nonzero.
      assert (inject_Z n < inject_Z 0) by (rewrite <- Zlt_Qlt; lia).
      change (inject_Z 0) with 0 in *. lra.
Qed.

(** X18.  Over exact arithmetic (floats read as exact rationals), from the
    page's four inputs.  With a term of zero the page stops at line 27 with
    the [ZeroDivisionError] of [annuity_payment] and never reaches the
    total overpaid.  With any other term lines 26-35 complete, and the
    total overpaid shown under the chart then raises [IndexError], for
    either strategy, exactly when the principal is not positive or the term
    is negative; whenever it is computed it is the sum of the schedule's
    overpayment fields. *)
Theorem total_overpayment_fails_on_empty_schedule
  (P rate ov : Q) (n : Z) :
  match page_calculations P rate n ov with
  | Raise e => n = 0%Z /\ e = ZeroDivisionError
  | OutOfFuel => False
  | Ok page =>
      n <> 0%Z /\
      (total_overpayment (result_a page) = None <->
         (P <= 0 \/ (n < 0)%Z)) /\
      (total_overpayment (result_b page) = None <->
         (P <= 0 \/ (n < 0)%Z)) /\
      (forall v, total_overpayment (result_a page) = Some v ->
         v == py_sum (map overpayment (schedule (result_a page)))) /\
      (forall v, total_overpayment (result_b page) = Some v ->
         v == py_sum (map overpayment (schedule (result_b page))))
  end.
Proof.
  unfold page_calculations.
  destruct (Z.eq_dec n 0) as [-> | Hn].
  - rewrite annuity_payment_zero_term. cbn [bind]. split; reflexivity.
  - destruct (annuity_payment_answers P (rate / 100 / 12) n Hn)
      as (base & ->).
    cbn [bind].
    destruct (schedules_empty_or_not P (rate / 100 / 12) base ov
                n) as (ra & rb & -> & -> & He & Hne).
    cbn [bind result_a result_b].
    unfold total_overpayment. rewrite !py_last_none, !cumsum_empty.
    assert (Hcase : (P <= 0 \/ (n < 0)%Z)
                    \/ (0 < P /\ (1 <= n)%Z)).
    { destruct (Qlt_le_dec 0 P); [ | now left; left ].
      destruct (Z.le_gt_cases 1 n); [ now right | left; right; lia ]. }
    assert (Hempty : (P <= 0 \/ (n < 0)%Z) ->
                     schedule ra = [] /\ schedule rb = []).
    { intros [ H | H ]; apply He; [ now left | right; lia ]. }
    split_and.
    + assumption.
    + split; [ intros H | intros H; now apply Hempty ].
      destruct Hcase as [ | Hv ]; [ assumption | ]. now destruct (Hne Hv).
    + split; [ intros H | intros H; now apply Hempty ].
      destruct Hcase as [ | Hv ]; [ assumption | ]. now destruct (Hne Hv).
    + intros v. apply py_last_accumulate.
    + intros v. apply py_last_accumulate.
Qed.

Lemma comprehension_total {A : Type} (f : nat -> option A) (l : list nat) :
  (forall i, In i l -> f i <> None) ->
  exists xs, comprehension (map f l) = Some xs /\ length xs = length l.
Proof.
  induction l as [ | i rest IH ]; intros H; cbn [map comprehension].
  - exists []. split; reflexivity.
  - destruct (f i) as [ x | ] eqn:E; [ | now destruct (H i (or_introl eq_refl)) ].
    destruct IH as (xs & -> & Hlen); [ intros j Hj; apply H; now right | ].
    exists (x :: xs). split; [ reflexivity | cbn; now rewrite Hlen ].
Qed.

Lemma overpayment_column_total (res : StrategyResult) (rows : nat) :
  (schedule res = [] -> rows = 0%nat) ->
  exists col, overpayment_column res rows = Some col /\ length col = rows.
Proof.
  intros Hrows. unfold overpayment_column.
  destruct (comprehension_total
              (fun i => if (i <? length (cumsum res))%nat
                        then nth_error (cumsum res) i
                        else py_last (cumsum res))
              (seq 0 rows)) as (col & Hcol & Hlen).
  - intros i Hi. apply in_seq in Hi.
    destruct (Nat.ltb_spec i (length (cumsum res))) as [Hlt | Hge].
    + now apply nth_error_Some.
    + rewrite py_last_none, cumsum_empty. intros He. specialize (Hrows He). lia.
  - exists col. split; [ assumption | now rewrite Hlen, length_seq ].
Qed.

(** X19.  For every input the two columns of the cumulative-overpayment
    chart are computed without an [IndexError], and each has one value per
    chart row. *)
Theorem overpayment_chart_never_fails (P r base ov : Q) (n : Z) :
  exists ra rb cola colb,
    calculate_shorten_term P r base ov n = Ok ra /\
    calculate_reduce_payment P r base ov n = Ok rb /\
    overpayment_column ra (num_rows ra rb) = Some cola /\
    overpayment_column rb (num_rows ra rb) = Some colb /\
    length cola = num_rows ra rb /\
    length colb = num_rows ra rb.
Proof.
  destruct (schedules_empty_or_not P r base ov n) as (ra & rb & Hra & Hrb & He & Hne).
  assert (Hboth : schedule ra = [] <-> schedule rb = []).
  { destruct (Qlt_le_dec 0 P) as [HP | HP];
      [ destruct (Z.le_gt_cases 1 n) as [Hn | Hn] | ].
    - destruct (Hne (conj HP Hn)). tauto.
    - assert (Hn0 : (n <= 0)%Z) by lia. destruct (He (or_intror Hn0)). tauto.
    - destruct (He (or_introl HP)). tauto. }
  destruct (overpayment_column_total ra (num_rows ra rb)) as (cola & Ha & La).
  { intros H. unfold num_rows. rewrite H, (proj1 Hboth H). reflexivity. }
  destruct (overpayment_column_total rb (num_rows ra rb)) as (colb & Hb & Lb).
  { intros H. unfold num_rows. rewrite H, (proj2 Hboth H). reflexivity. }
  exists ra, rb, cola, colb. split_and; assumption.
Qed.

(** ** The balance chart *)

Lemma column_of_whole_list {A : Type} (f : A -> Q) (l : list A) :
  map (fun i =>
         if (i <? length l)%nat
         then match nth_error l i with Some e => f e | None => 0 end
         else 0)
      (seq 0 (length l))
  = map f l.
Proof.
  induction l as [ | a rest IH ]; [ reflexivity | ].
  cbn [length seq map]. f_equal. rewrite <- seq_shift, map_map.
  rewrite <- IH at 1. apply map_ext. intros i. reflexivity.
Qed.

Lemma Forall2_map_same {A B C : Type} (R : B -> C -> Prop)
  (f : A -> B) (g : A -> C) (l : list A) :
  (forall x, In x l -> R (f x) (g x)) -> Forall2 R (map f l) (map g l).
Proof.
  induction l as [ | a rest IH ]; intros H; cbn; constructor.
  - apply H. now left.
  - apply IH. intros x Hx. apply H. now right.
Qed.

Lemma amortizing_nonneg (prev : Q) (sched : list MonthlyEntry) :
  amortizing prev sched -> Forall (fun e => 0 <= balance e) sched.
Proof.
  revert prev. induction sched as [ | e rest IH ]; intros prev; cbn.
  - constructor.
  - intros [(H0 & _) Hrest]. constructor; [ assumption | now apply (IH (balance e)) ].
Qed.

(** X20.  Over exact arithmetic (floats read as exact rationals): on
    valid inputs the balance chart has one row per month of strategy B,
    strategy B's column is its schedule's balances without padding, and in
    every row strategy A's value is at most strategy B's. *)
Theorem balance_chart_orders_the_strategies (P r base ov : Q) (n : Z) :
  0 < P -> 0 <= r -> 0 <= ov -> (1 <= n)%Z ->
  annuity_payment P r n = Ok base ->
  exists ra rb,
    calculate_shorten_term P r base ov n = Ok ra /\
    calculate_reduce_payment P r base ov n = Ok rb /\
    num_rows ra rb = length (schedule rb) /\
    balance_column rb (num_rows ra rb) = map balance (schedule rb) /\
    Forall2 Qle (balance_column ra (num_rows ra rb))
      (balance_column rb (num_rows ra rb)).
Proof.
  intros HP Hr Hov Hn Hbase.
  pose proof (annuity_payment_base P r base n Hn Hbase) as Hf.
  destruct (shorten_returns P r base ov n) as (sa & Hwa & Hra).
  destruct (reduce_returns P r base ov n) as (sb & Hwb & Hrb).
  do 2 eexists. split; [ eassumption | split; [ eassumption | ] ].
  destruct (ahead_on_record_to_the_end P r base ov n sa sb HP Hr Hov Hn Hf Hwa Hwb)
    as (pre & more & E & Hrec).
  pose proof (Forall2_length Hrec) as Hlen.
  apply while_reaches in Hwb. destruct Hwb as [Hreach_b _].
  pose proof (reduce_reaches_sound P r base ov n HP Hr Hov Hf sb Hreach_b)
    as (_ & _ & _ & Ham & _).
  apply amortizing_nonneg in Ham. rewrite Forall_forall in Ham.
  assert (Hrows : Nat.max (length (a_schedule sa)) (length (b_schedule sb))
                  = length (b_schedule sb)).
  { rewrite E, length_app. lia. }
  unfold num_rows, balance_column. cbn [schedule]. rewrite Hrows.
  split; [ reflexivity | split; [ apply column_of_whole_list | ] ].
  apply Forall2_map_same. intros i Hi. apply in_seq in Hi.
  destruct (Nat.ltb_spec i (length (b_schedule sb))) as [Hb | Hb]; [ | lia ].
  destruct (nth_error (b_schedule sb) i) as [ eb | ] eqn:Eb;
    [ | apply nth_error_None in Eb; lia ].
  destruct (Nat.ltb_spec i (length (a_schedule sa))) as [Ha | Ha].
  - destruct (nth_error (a_schedule sa) i) as [ ea | ] eqn:Ea;
      [ | apply nth_error_None in Ea; lia ].
    rewrite E, nth_error_app1 in Eb by lia.
    exact (Forall2_nth_error _ _ _ _ _ _ Hrec Ea Eb).
  - apply Ham. eapply nth_error_In. eassumption.
Qed.

Lemma balance_chart_orders_the_strategies_witness :
  exists ra rb,
    calculate_shorten_term 1000 (1 # 10) (1331000000 # 3310000) 100 3 = Ok ra /\
    calculate_reduce_payment 1000 (1 # 10) (1331000000 # 3310000) 100 3 = Ok rb /\
    num_rows ra rb = length (schedule rb) /\
    balance_column rb (num_rows ra rb) = map balance (schedule rb) /\
    Forall2 Qle (balance_column ra (num_rows ra rb))
      (balance_column rb (num_rows ra rb)).
Proof.
  apply (balance_chart_orders_the_strategies 1000 (1 # 10)
           (1331000000 # 3310000) 100 3);
    [ reflexivity | unfold Qle; simpl; lia | unfold Qle; simpl; lia | lia
    | reflexivity ].
Defined.

(** ** Only the last entry can record less than the overpayment *)

Lemma recorded_in_full_snoc (ov bal bal' : Q) (sched : list MonthlyEntry)
  (e : MonthlyEntry) :
  recorded_in_full ov bal sched -> 0 < bal ->
  (0 < bal' -> overpayment e == ov) ->
  recorded_in_full ov bal' (sched ++ [e]).
Proof.
  intros [_ Hall] Hbal He. specialize (Hall Hbal). split.
  - intros rest e' E. apply app_inj_tail in E. destruct E as [<- _]. assumption.
  - intros Hbal'. apply Forall_app. split; [ assumption | ].
    constructor; [ now apply He | constructor ].
Qed.

Lemma uncapped_records_overpayment (ov inst i bal : Q) :
  0 <= ov -> 0 < bal - paid (inst + ov) i bal ->
  py_max 0 (i + paid (inst + ov) i bal - inst) == ov.
Proof.
  intros Hov. unfold paid.
  destruct (Qgtb_spec (inst + ov - i) bal) as [Hcap | Hcap]; [ lra | intros _ ].
  unfold py_max. destruct (Qgtb_spec (i + (inst + ov - i) - inst) 0); lra.
Qed.

(** X21.  Over exact arithmetic (floats read as exact rationals): with
    a non-negative overpayment, for every other input, every schedule entry
    except possibly the last records exactly the configured overpayment, in
    both strategies. *)
Theorem only_last_entry_records_less (P r base ov : Q) (n : Z) :
  0 <= ov ->
  exists ra rb,
    calculate_shorten_term P r base ov n = Ok ra /\
    calculate_reduce_payment P r base ov n = Ok rb /\
    (forall rest e, schedule ra = rest ++ [e] ->
       Forall (fun e' => overpayment e' == ov) rest) /\
    (forall rest e, schedule rb = rest ++ [e] ->
       Forall (fun e' => overpayment e' == ov) rest).
Proof.
  intros Hov.
  destruct (simulators_run P r base ov n) as (sa & sb & Hra & Hrb & Ha & _ & Hb & _).
  do 2 eexists. split; [ eassumption | split; [ eassumption | ] ].
  cbn [schedule]. clear Hra Hrb. split.
  - assert (H : shorten_books P r base ov sa /\
                recorded_in_full ov (a_balance sa) (a_schedule sa));
      [ | now destruct H as [_ [H _]] ].
    revert sa Ha.
    apply (reaches_invariant _ _
             (fun s => shorten_books P r base ov s /\
                       recorded_in_full ov (a_balance s) (a_schedule s))).
    + split; [ apply (shorten_reaches_books P r base ov n); constructor | ].
      split; [ intros [ | ? ? ] ? E; discriminate E | intros _; constructor ].
    + intros s0 s1 [Hbooks Hfull] Hg [= <-].
      split; [ now apply (shorten_books_step P r base ov n) | ].
      pose proof (shorten_guard_true _ _ Hg) as [Hbal _].
      destruct Hbooks as (_ & _ & _ & Hpay & _). specialize (Hpay Hbal).
      rewrite shorten_body_fields. cbv zeta. cbn [a_schedule a_balance].
      apply (recorded_in_full_snoc ov (a_balance s0)); [ assumption | assumption | ].
      cbn [overpayment]. rewrite Hpay. now apply uncapped_records_overpayment.
  - assert (H : recorded_in_full ov (b_balance sb) (b_schedule sb));
      [ | now destruct H as [H _] ].
    revert sb Hb.
    apply (reaches_invariant _ _
             (fun s => recorded_in_full ov (b_balance s) (b_schedule s))).
    + split; [ intros [ | ? ? ] ? E; discriminate E | intros _; constructor ].
    + intros s0 s1 Hfull Hg Hstep.
      pose proof (reduce_guard_true _ Hg) as [Hbal _].
      apply reduce_body_fields in Hstep. cbv zeta in Hstep.
      destruct Hstep as (Eb & _ & _ & Es & _). rewrite Es, Eb.
      apply (recorded_in_full_snoc ov (b_balance s0)); [ assumption | assumption | ].
      cbn [overpayment]. now apply uncapped_records_overpayment.
Qed.

Lemma only_last_entry_records_less_witness :
  exists ra rb,
    calculate_shorten_term 1000 (1 # 10) (1331000000 # 3310000) 100 3 = Ok ra /\
    calculate_reduce_payment 1000 (1 # 10) (1331000000 # 3310000) 100 3 = Ok rb /\
    (forall rest e, schedule ra = rest ++ [e] ->
       Forall (fun e' => overpayment e' == 100) rest) /\
    (forall rest e, schedule rb = rest ++ [e] ->
       Forall (fun e' => overpayment e' == 100) rest).
Proof.
  apply (only_last_entry_records_less 1000 (1 # 10) (1331000000 # 3310000) 100 3).
  unfold Qle; simpl; lia.
Defined.

(** * The engine in binary64: what rounding cannot touch *)

Lemma b64_py_max_nonnegative (x : float) : b64_nonnegative (B64.py_max 0 x).
Proof.
  unfold B64.py_max, b64_nonnegative.
  destruct (PrimFloat.ltb 0 x) eqn:E; [ right; exact E | left; reflexivity ].
Qed.

Lemma b64_recorded_snoc (m : Z) (sched : list B64.MonthlyEntry)
  (e : B64.MonthlyEntry) :
  b64_recorded m sched ->
  B64.month e = (m + 1)%Z ->
  b64_nonnegative (B64.overpayment e) ->
  b64_recorded (m + 1) (sched ++ [e]).
Proof.
  intros (Hlen & Hnum & Hov) Hm He. unfold b64_recorded. split_and.
  - rewrite length_app. cbn [length]. lia.
  - intros i e' Hi.
    destruct (Nat.lt_ge_cases i (length sched)) as [Hlt | Hge].
    + rewrite nth_error_app1 in Hi by assumption. now apply Hnum.
    + rewrite nth_error_app2 in Hi by assumption.
      destruct (i - length sched)%nat as [ | k ] eqn:Hk.
      * injection Hi as <-. rewrite Hm, Hlen. f_equal. lia.
      * destruct k; discriminate.
  - apply Forall_app. split; [ assumption | ]. constructor; [ assumption | constructor ].
Qed.

Lemma b64_shorten_reaches_recorded (P r base ov : float) (n : Z)
  (s : B64.shorten_state) :
  reaches (B64.shorten_guard n) (fun s => Ok (B64.shorten_body r base s))
    (B64.shorten_init P base ov) s ->
  b64_recorded (B64.a_month s) (B64.a_schedule s).
Proof.
  apply (reaches_invariant _ _
           (fun s => b64_recorded (B64.a_month s) (B64.a_schedule s))).
  - unfold b64_recorded. cbn. split_and.
    + reflexivity.
    + intros [ | i ] e E; discriminate E.
    + constructor.
  - intros s0 s1 Hrec _ [= <-]. unfold B64.shorten_body.
    cbn [B64.a_month B64.a_schedule].
    apply b64_recorded_snoc; [ assumption | reflexivity | ].
    cbn [B64.overpayment]. apply b64_py_max_nonnegative.
Qed.

Lemma b64_shorten_loop_returns (r base : float) (n : Z) (fuel : nat)
  (s : B64.shorten_state) :
  (Z.to_nat (n - B64.a_month s) <= fuel)%nat ->
  exists s',
    while (B64.shorten_guard n) (fun s => Ok (B64.shorten_body r base s)) fuel s
    = Ok s'.
Proof.
  intros Hfuel.
  apply (while_total _ _ (fun s => Z.to_nat (n - B64.a_month s)) (fun _ => True));
    [ | exact I | assumption ].
  intros s0 _ Hg. apply b64_shorten_guard_true in Hg.
  eexists. split; [ reflexivity | split; [ exact I | ] ].
  unfold B64.shorten_body. cbn [B64.a_month]. lia.
Qed.

Section B64Records.

Variable libm_pow : float -> Z -> float.
Variable round_int : Z -> float.

Lemma b64_reduce_body_entry (r ov : float) (s s' : B64.reduce_state) :
  B64.reduce_body libm_pow round_int r ov s = Ok s' ->
  exists e,
    B64.b_schedule s' = B64.b_schedule s ++ [e] /\
    B64.b_month s' = (B64.b_month s + 1)%Z /\
    B64.month e = (B64.b_month s + 1)%Z /\
    b64_nonnegative (B64.overpayment e).
Proof.
  unfold B64.reduce_body. cbv zeta.
  match goal with
  | |- bind ?c _ = _ -> _ => destruct c as [ v | e | ]; cbn [bind]; try discriminate
  end.
  intros [= <-]. cbn [B64.b_schedule B64.b_month].
  eexists. split_and; [ reflexivity | reflexivity | reflexivity | ].
  cbn [B64.overpayment]. apply b64_py_max_nonnegative.
Qed.

Lemma b64_reduce_reaches_recorded (P r base ov : float) (n : Z)
  (s : B64.reduce_state) :
  reaches B64.reduce_guard (B64.reduce_body libm_pow round_int r ov)
    (B64.reduce_init P base n) s ->
  b64_recorded (B64.b_month s) (B64.b_schedule s).
Proof.
  apply (reaches_invariant _ _
           (fun s => b64_recorded (B64.b_month s) (B64.b_schedule s))).
  - unfold b64_recorded. cbn. split_and.
    + reflexivity.
    + intros [ | i ] e E; discriminate E.
    + constructor.
  - intros s0 s1 Hrec _ Hb. apply b64_reduce_body_entry in Hb.
    destruct Hb as (e & -> & -> & Hm & He). now apply b64_recorded_snoc.
Qed.

End B64Records.

(** X22.  In binary64, for float arguments and whatever the C runtime:
    [calculate_shorten_term] never raises, it returns for every input; and
    every result either strategy returns has [months] equal to the length
    of its schedule, the entry at position [i] carrying month number
    [i + 1]. *)
Theorem binary64_schedules_are_numbered
  (libm_pow : float -> Z -> float) (round_int : Z -> float)
  (P r base ov : float) (n : Z) :
  (exists ra,
     B64.calculate_shorten_term P r base ov n = Ok ra /\
     B64.months ra = Z.of_nat (length (B64.schedule ra)) /\
     b64_numbered (B64.schedule ra)) /\
  (forall rb,
     B64.calculate_reduce_payment libm_pow round_int P r base ov n = Ok rb ->
     B64.months rb = Z.of_nat (length (B64.schedule rb)) /\
     b64_numbered (B64.schedule rb)).
Proof.
  unfold B64.calculate_shorten_term, B64.calculate_reduce_payment. split.
  - destruct (b64_shorten_loop_returns r base n (Z.to_nat n)
                (B64.shorten_init P base ov)) as (s & Hw);
      [ cbn; rewrite Z.sub_0_r; lia | ].
    rewrite Hw. cbn [bind]. eexists. split; [ reflexivity | ].
    cbn [B64.months B64.schedule].
    apply while_reaches in Hw. destruct Hw as [Hreach _].
    destruct (b64_shorten_reaches_recorded P r base ov n s Hreach)
      as (Hlen & Hnum & _).
    split; assumption.
  - intros rb.
    destruct (while B64.reduce_guard _ _ _) as [ s | e | ] eqn:Hw;
      cbn [bind]; try discriminate.
    intros [= <-]. cbn [B64.months B64.schedule].
    apply while_reaches in Hw. destruct Hw as [Hreach _].
    destruct (b64_reduce_reaches_recorded libm_pow round_int P r base ov n s Hreach)
      as (Hlen & Hnum & _).
    split; assumption.
Qed.

(** X23.  In binary64, for float arguments and whatever the C runtime: no
    schedule entry of either strategy records a negative overpayment or a
    NaN; each records [0.0] or a positive float. *)
Theorem binary64_overpayments_are_nonnegative
  (libm_pow : float -> Z -> float) (round_int : Z -> float)
  (P r base ov : float) (n : Z) :
  (exists ra,
     B64.calculate_shorten_term P r base ov n = Ok ra /\
     Forall (fun e => b64_nonnegative (B64.overpayment e)) (B64.schedule ra)) /\
  (forall rb,
     B64.calculate_reduce_payment libm_pow round_int P r base ov n = Ok rb ->
     Forall (fun e => b64_nonnegative (B64.overpayment e)) (B64.schedule rb)).
Proof.
  unfold B64.calculate_shorten_term, B64.calculate_reduce_payment. split.
  - destruct (b64_shorten_loop_returns r base n (Z.to_nat n)
                (B64.shorten_init P base ov)) as (s & Hw);
      [ cbn; rewrite Z.sub_0_r; lia | ].
    rewrite Hw. cbn [bind]. eexists. split; [ reflexivity | ].
    cbn [B64.schedule].
    apply while_reaches in Hw. destruct Hw as [Hreach _].
    now destruct (b64_shorten_reaches_recorded P r base ov n s Hreach)
      as (_ & _ & Hov).
  - intros rb.
    destruct (while B64.reduce_guard _ _ _) as [ s | e | ] eqn:Hw;
      cbn [bind]; try discriminate.
    intros [= <-]. cbn [B64.schedule].
    apply while_reaches in Hw. destruct Hw as [Hreach _].
    now destruct (b64_reduce_reaches_recorded libm_pow round_int P r base ov n s
                    Hreach) as (_ & _ & Hov).
Qed.

(** X24.  In binary64, for float arguments and whatever the C runtime: a
    principal that is not above zero (negative, zero of either sign, or
    NaN) gives the empty result from both strategies: no months, no
    interest, no schedule entries, and the installment handed in. *)
Theorem binary64_nonpositive_principal_gives_empty_result
  (libm_pow : float -> Z -> float) (round_int : Z -> float)
  (P r base ov : float) (n : Z) :
  PrimFloat.ltb 0 P = false ->
  B64.calculate_shorten_term P r base ov n = Ok (B64.mkResult 0 0 [] base) /\
  B64.calculate_reduce_payment libm_pow round_int P r base ov n
  = Ok (B64.mkResult 0 0 [] base).
Proof.
  intros HP. unfold B64.calculate_shorten_term, B64.calculate_reduce_payment.
  split.
  - rewrite while_exit; [ reflexivity | ].
    unfold B64.shorten_guard. cbn [B64.shorten_init B64.a_balance]. now rewrite HP.
  - rewrite while_exit; [ reflexivity | ].
    unfold B64.reduce_guard. cbn [B64.reduce_init B64.b_balance]. now rewrite HP.
Qed.

Lemma binary64_nonpositive_principal_gives_empty_result_witness :
  B64.calculate_shorten_term (-5) 0x1p-7 50 10 12 = Ok (B64.mkResult 0 0 [] 50) /\
  B64.calculate_reduce_payment B64.exact_pow B64.exact_int (-5) 0x1p-7 50 10 12
  = Ok (B64.mkResult 0 0 [] 50).
Proof.
  apply (binary64_nonpositive_principal_gives_empty_result
           B64.exact_pow B64.exact_int (-5) 0x1p-7 50 10 12).
  reflexivity.
Defined.
